(** * learn.py: hyperparameter search adapter and orchestration

    A shallow embedding of [src/learn.py]: the class [HyperoptSearchCV]
    (a scikit-learn style wrapper around hyperopt's [fmin]), the plotting
    helper [plot_feature_importance] and the loop of [main].

    Python objects live in a heap of attribute dictionaries, so that
    [self.X_ = X], [del self.X_], [hasattr] and the aliasing created by
    [set_params(...).fit(...)] (both return [self]) are modelled as they
    happen.  Code runs in a state-and-exception monad over that heap, and
    every call that leaves the file (hyperopt, scikit-learn, matplotlib,
    joblib) is recorded in a trace of events.  What those libraries compute
    is taken as a parameter of the development. *)

From Stdlib Require Import ZArith List Floats.PrimFloat.
From stdpp Require Import base option gmap strings list fin_maps.

Set Warnings "-inexact-float".

Local Open Scope Z_scope.
Local Open Scope string_scope.

(** ** Values *)

(** Scalars that appear as hyperparameter values and constructor arguments. *)
Inductive atom : Type :=
  | ANone
  | ABool (b : bool)
  | AInt (z : Z)
  | AFloat (f : float)
  | AStr (s : string).

(** A keyword dictionary ([**kwargs], [best_params_]); Python dictionaries
    iterate in insertion order. *)
Definition config : Type := list (string * atom).

(** A 2-D array as the list of its rows, a 1-D array as a list. *)
Definition matrix : Type := list (list float).
Definition vector : Type := list float.

Definition loc : Type := nat.

Inductive value : Type :=
  | VAtom (a : atom)
  | VRef (l : loc)
  | VArray2 (m : matrix)
  | VArray1 (v : vector)
  | VDict (d : config).

Definition VNone : value := VAtom ANone.

(** An object: its class name, the parameter names of its constructor
    (what scikit-learn's [_get_param_names] reads off [__init__]) and its
    attribute dictionary. *)
Record obj : Type := mkObj {
  cls : string;
  init_params : list string;
  attrs : gmap string value
}.

(** ** Exceptions *)

Inductive exn : Type :=
  | ValueError (msg : string)
  | TypeError (msg : string)
  | AttributeError (attr : string)
  | KeyError (key : string)
  | NotFittedError.

(** ** Calls that leave the file *)

Record ShuffleSplit : Type := mkShuffleSplit {
  n_splits : Z;
  test_size : float;
  split_random_state : Z
}.

Inductive distribution : Type :=
  | choices (l : list float)
  | randint (low high : Z)
  | uniform (start scale : float).

Inductive event : Type :=
  | call_fmin (space : value) (max_evals : value)
  | call_cross_val_score (est : loc)
  | call_estimator_fit (est : loc)
  | call_estimator_predict (est : loc) (X : matrix)
  | call_gc_collect
  | call_set_style
  | call_rcParams_set (key val : string)
  | call_subplots
  | call_bar (xs : list Z) (heights : vector)
  | call_set_xlim (lo hi : Z)
  | call_set_ylim (lo hi : float)
  | call_set_xlabel (s : string)
  | call_set_ylabel (s : string)
  | call_savefig (path : string)
  | call_draw_unusual (importances : value) (path : string)
  | call_RandomizedSearchCV_fit (family : string)
  | call_dump (o : obj) (path : string).

(** ** The heap and the monad *)

Record world : Type := mkWorld {
  heap : gmap loc obj;
  trace : list event
}.

Inductive result (A : Type) : Type :=
  | Ok (a : A)
  | Raise (e : exn).
Arguments Ok {A} a.
Arguments Raise {A} e.

Definition M (A : Type) : Type := world -> result A * world.

Definition ret {A} (a : A) : M A := fun w => (Ok a, w).

Definition raise {A} (e : exn) : M A := fun w => (Raise e, w).

Definition bind {A B} (m : M A) (k : A -> M B) : M B :=
  fun w =>
    match m w with
    | (Ok a, w') => k a w'
    | (Raise e, w') => (Raise e, w')
    end.

(** stdpp's monadic notations: [x ← c; k] and [c;; k]. *)
#[global] Instance M_ret : MRet M := @ret.
#[global] Instance M_bind : MBind M := fun A B k m => bind m k.

Definition lift {A} (r : exn + A) : M A :=
  match r with
  | inl e => raise e
  | inr a => ret a
  end.

Definition log (ev : event) : M unit :=
  fun w => (Ok tt, mkWorld (heap w) (trace w ++ [ev])).

(** ** Attribute access *)

Definition deref (l : loc) : M obj :=
  fun w =>
    match heap w !! l with
    | Some o => (Ok o, w)
    | None => (Raise (TypeError "not an object"), w)
    end.

Definition store (l : loc) (o : obj) : M unit :=
  fun w => (Ok tt, mkWorld (<[l := o]> (heap w)) (trace w)).

(** [new_object o]: a fresh location holding [o]. *)
Definition new_object (o : obj) : M loc :=
  fun w =>
    let l := fresh (dom (heap w)) in
    (Ok l, mkWorld (<[l := o]> (heap w)) (trace w)).

(** [o.name] *)
Definition getattr (l : loc) (name : string) : M value :=
  o ← deref l;
  match attrs o !! name with
  | Some v => ret v
  | None => raise (AttributeError name)
  end.

Definition set_obj (o : obj) (name : string) (v : value) : obj :=
  mkObj (cls o) (init_params o) (<[name := v]> (attrs o)).

Definition del_obj (o : obj) (name : string) : obj :=
  mkObj (cls o) (init_params o) (delete name (attrs o)).

(** [o.name = v] *)
Definition setattr (l : loc) (name : string) (v : value) : M unit :=
  o ← deref l;
  store l (set_obj o name v).

(** [del o.name] *)
Definition delattr (l : loc) (name : string) : M unit :=
  o ← deref l;
  match attrs o !! name with
  | Some _ => store l (del_obj o name)
  | None => raise (AttributeError name)
  end.

(** [hasattr(o, name)], read off a world. *)
Definition hasattr (w : world) (l : loc) (name : string) : bool :=
  match heap w !! l with
  | Some o => bool_decide (is_Some (attrs o !! name))
  | None => false
  end.

(** The attribute itself, read off a world. *)
Definition attr_of (w : world) (l : loc) (name : string) : option value :=
  o ← heap w !! l; attrs o !! name.

(** ** scikit-learn: input validation and the estimator protocol *)

(** [check_array(X, accept_sparse=True)] on a dense numeric input: the
    array must be two-dimensional, finite, with at least one sample and
    one feature.  Every rejection is a [ValueError]. *)
Definition check_array (X : matrix) : exn + matrix :=
  match X with
  | [] => inl (ValueError "Expected 2D array, got 1D array instead")
  | r :: rs =>
      if negb (forallb (fun r' => Nat.eqb (length r') (length r)) rs)
      then inl (ValueError "setting an array element with a sequence")
      else if negb (forallb (forallb is_finite) X)
      then inl (ValueError "Input contains NaN, infinity or a value too large")
      else if Nat.eqb (length r) 0
      then inl (ValueError "Found array with 0 feature(s)")
      else inr X
  end.

(** [check_X_y(X, Y, accept_sparse=True)]: [X] as [check_array], [Y]
    one-dimensional and finite, and then [check_consistent_length]. *)
Definition check_X_y (X : matrix) (Y : vector) : exn + (matrix * vector) :=
  match check_array X with
  | inl e => inl e
  | inr X' =>
      if negb (forallb is_finite Y)
      then inl (ValueError "Input contains NaN, infinity or a value too large")
      else if negb (Nat.eqb (length X') (length Y))
      then inl (ValueError "Found input variables with inconsistent numbers of samples")
      else inr (X', Y)
  end.

(** [check_is_fitted(estimator, attributes)] with the default
    [all_or_any=all], the signature the call in [predict] uses: every
    listed attribute must be present. *)
Definition check_is_fitted (l : loc) (attributes : list string) : M unit :=
  fun w =>
    if forallb (hasattr w l) attributes
    then (Ok tt, w)
    else (Raise NotFittedError, w).

(** [BaseEstimator.get_params]: one entry per constructor parameter, read
    with [getattr(self, key, None)]. *)
Definition get_params (o : obj) : gmap string value :=
  list_to_map (map (fun k => (k, default VNone (attrs o !! k))) (init_params o)).

(** [clone(estimator)]: a new, unfitted object of the same class built
    from [get_params]. *)
Definition clone (v : value) : M value :=
  match v with
  | VRef l =>
      o ← deref l;
      l' ← new_object (mkObj (cls o) (init_params o) (get_params o));
      ret (VRef l')
  | _ => raise (TypeError "Cannot clone object: it does not implement get_params")
  end.

(** The loop of [BaseEstimator.set_params] over flat parameter names:
    [setattr] for a known name, [ValueError] at the first unknown one. *)
Fixpoint set_each (l : loc) (valid : list string) (params : config) : M unit :=
  match params with
  | [] => ret tt
  | (key, a) :: rest =>
      if bool_decide (key ∈ valid)
      then setattr l key (VAtom a);; set_each l valid rest
      else raise (ValueError "Invalid parameter")
  end.

(** [estimator.set_params] applied to a keyword dictionary: mutates the
    receiver and returns it. *)
Definition set_params (v : value) (params : value) : M value :=
  match v, params with
  | VRef l, VDict d =>
      o ← deref l;
      set_each l (init_params o) d;;
      ret (VRef l)
  | VRef _, _ => raise (TypeError "argument after ** must be a mapping")
  | _, _ => raise (AttributeError "set_params")
  end.

(** ** What the libraries compute *)

(** An estimator of [main]'s table: the class and the keyword arguments
    it is constructed with. *)
Record template : Type := mkTemplate {
  t_cls : string;
  t_kwargs : config
}.

Class Libraries : Type := {
  (** hyperopt: the configuration [tpe.suggest] proposes after a history
      of trials, and [Trials.argmin] (which fails on an empty history) *)
  suggest : value -> list (config * float) -> config;
  trials_argmin : list (config * float) -> exn + config;
  (** scikit-learn: [cross_val_score(estimator, X, y, scoring, cv, n_jobs,
      verbose)], the estimator's own [fit] (the attributes it leaves on
      the receiver) and [predict] *)
  cross_val_score : obj -> value -> value -> value -> value -> value -> value ->
                    exn + vector;
  estimator_fit : obj -> value -> value -> exn + gmap string value;
  estimator_predict : obj -> matrix -> exn + vector;
  (** [RandomizedSearchCV(...).fit(X, Y).best_estimator_] *)
  RandomizedSearchCV_fit :
    template -> list (string * distribution) -> string -> ShuffleSplit ->
    Z -> Z -> Z -> Z -> matrix -> vector -> exn + obj;
  (** numpy: [ndarray.mean()] *)
  np_mean : vector -> float;
  (** joblib and matplotlib write files: how [dump(value, filename)] ends
      (the directory may be missing, the object may not pickle) and how
      [savefig(path)] ends for a chart of the given bar heights *)
  dump_outcome : obj -> string -> exn + unit;
  savefig_outcome : vector -> string -> exn + unit;
  (** numpy and matplotlib on importances that are not a one-dimensional
      array but may have a [size] (a two-dimensional array, an object):
      how the statements from [.size] to [savefig] end *)
  draw_unusual : value -> string -> exn + unit
}.

Section Estimator.
Context `{Libraries}.

(** [estimator.fit(X, Y)]: fits the receiver in place and returns it. *)
Definition fit_estimator (v : value) (X Y : value) : M value :=
  match v with
  | VRef l =>
      o ← deref l;
      log (call_estimator_fit l);;
      fitted ← lift (estimator_fit o X Y);
      store l (mkObj (cls o) (init_params o) fitted);;
      ret (VRef l)
  | _ => raise (AttributeError "fit")
  end.

(** [estimator.predict(X)] *)
Definition predict_estimator (v : value) (X : matrix) : M vector :=
  match v with
  | VRef l =>
      o ← deref l;
      log (call_estimator_predict l X);;
      lift (estimator_predict o X)
  | _ => raise (AttributeError "predict")
  end.

(** [fmin(fn, space, algo=tpe.suggest, max_evals=n)]: [n] trials, one
    after the other; an exception of the objective is not caught. *)
Fixpoint run_trials (fn : config -> M float) (space : value) (n : nat)
    (history : list (config * float)) : M (list (config * float)) :=
  match n with
  | O => ret history
  | S n' =>
      let kwargs := suggest space history in
      loss ← fn kwargs;
      run_trials fn space n' (history ++ [(kwargs, loss)])
  end.

Definition fmin (fn : config -> M float) (space : value) (max_evals : value)
    : M value :=
  log (call_fmin space max_evals);;
  match max_evals with
  | VAtom (AInt n) =>
      history ← run_trials fn space (Z.to_nat n) [];
      best ← lift (trials_argmin history);
      ret (VDict best)
  | _ => raise (TypeError "max_evals must be an integer")
  end.

End Estimator.

(** ** class HyperoptSearchCV *)

Module HyperoptSearchCV.
Section Methods.
Context `{Libraries}.

(** [HyperoptSearchCV(estimator, space, n_iter, scoring, cv, n_jobs,
    verbose)]: a new object on which [__init__] stores its seven
    arguments. *)
Definition __init__ (estimator space n_iter scoring cv n_jobs verbose : value)
    : M loc :=
  self ← new_object
    (mkObj "HyperoptSearchCV"
       ["estimator"; "space"; "n_iter"; "scoring"; "cv"; "n_jobs"; "verbose"] ∅);
  setattr self "estimator" estimator;;
  setattr self "space" space;;
  setattr self "n_iter" n_iter;;
  setattr self "scoring" scoring;;
  setattr self "cv" cv;;
  setattr self "n_jobs" n_jobs;;
  setattr self "verbose" verbose;;
  ret self.

(** The defaults of [__init__]. *)
Definition default_n_iter : value := VAtom (AInt 100).
Definition default_scoring : value := VNone.
Definition default_cv : value := VNone.
Definition default_n_jobs : value := VAtom (AInt 1).
Definition default_verbose : value := VAtom (AInt 0).

(** [__objective(self, kwargs)] (inside the class the name is mangled
    the same way where it is defined and where [fit] refers to it).  The
    arguments of [cross_val_score] are evaluated from left to right: the
    clone and its [set_params] first, then [self.X_], then [self.y_]. *)
Definition __objective (self : loc) (kwargs : config) : M float :=
  estimator ← getattr self "estimator";
  cloned ← clone estimator;
  configured ← set_params cloned (VDict kwargs);
  X_ ← getattr self "X_";
  y_ ← getattr self "y_";
  scoring ← getattr self "scoring";
  cv ← getattr self "cv";
  n_jobs ← getattr self "n_jobs";
  verbose ← getattr self "verbose";
  match configured with
  | VRef l =>
      o ← deref l;
      log (call_cross_val_score l);;
      scores ← lift (cross_val_score o X_ y_ scoring cv n_jobs verbose);
      ret (- np_mean scores)%float
  | _ => raise (TypeError "estimator should be an estimator implementing fit")
  end.

(** [fit(self, X, Y)] *)
Definition fit (self : loc) (X : matrix) (Y : vector) : M value :=
  '(X, Y) ← lift (check_X_y X Y);
  setattr self "X_" (VArray2 X);;
  setattr self "Y_" (VArray1 Y);;
  space ← getattr self "space";
  n_iter ← getattr self "n_iter";
  best ← fmin (__objective self) space n_iter;
  setattr self "best_params_" best;;
  estimator ← getattr self "estimator";
  best_params_ ← getattr self "best_params_";
  configured ← set_params estimator best_params_;
  X_ ← getattr self "X_";
  Y_ ← getattr self "Y_";
  fitted ← fit_estimator configured X_ Y_;
  setattr self "best_estimator_" fitted;;
  delattr self "X_";;
  delattr self "Y_";;
  log call_gc_collect;;
  ret (VRef self).

(** [predict(self, X)] *)
Definition predict (self : loc) (X : matrix) : M vector :=
  check_is_fitted self ["best_params_"; "best_estimator_"];;
  X ← lift (check_array X);
  best_estimator_ ← getattr self "best_estimator_";
  predict_estimator best_estimator_ X.

(** The state of the adapter the specification calls fitted. *)
Definition fitted (w : world) (self : loc) : bool :=
  hasattr w self "best_params_" && hasattr w self "best_estimator_".

End Methods.
End HyperoptSearchCV.

(** ** plot_feature_importance *)

Section Plot.
Context `{Libraries}.

(** [plot_feature_importance(clf, path)].  The figure is created before
    [clf.feature_importances_] is read; the file is written by [savefig]
    at the end, which can raise.  Scalars and dictionaries have no
    [size]; what the libraries make of other values that are not a
    one-dimensional array is [draw_unusual], recorded as one event.  The
    closing [plt.clf] names the function without calling it, so it does
    nothing. *)
Definition plot_feature_importance (clf : loc) (path : string) : M unit :=
  log call_set_style;;
  log (call_rcParams_set "font.family" "Times New Roman");;
  log call_subplots;;
  feature_importances ← getattr clf "feature_importances_";
  match feature_importances with
  | VArray1 importances =>
      let n_features := Z.of_nat (length importances) in
      let features := map Z.of_nat (seq 0 (length importances)) in
      log (call_bar features importances);;
      log (call_set_xlim 0 n_features);;
      log (call_set_ylim 0 0.02);;
      log (call_set_xlabel "Features");;
      log (call_set_ylabel "Feature importance");;
      log (call_savefig path);;
      lift (savefig_outcome importances path)
  | VArray2 _ | VRef _ =>
      log (call_draw_unusual feature_importances path);;
      lift (draw_unusual feature_importances path)
  | VAtom _ | VDict _ => raise (AttributeError "size")
  end.

End Plot.

(** ** main *)

Definition n_splits_main : Z := 5.
Definition random_state : Z := 1.

(** [1.0 / n_splits] *)
Definition test_size_main : float := (1.0 / 5)%float.

(** The dictionary [estimator] of [main]. *)
Definition estimator : list (string * template) :=
  [ ("svm", mkTemplate "SVR"
       [ ("epsilon", AFloat 0.1); ("kernel", AStr "rbf"); ("degree", AInt 3);
         ("coef0", AInt 0); ("shrinking", ABool true); ("tol", AFloat 1.0e-03);
         ("verbose", ABool false); ("max_iter", AInt (-1)) ]);
    ("rf", mkTemplate "RandomForestRegressor"
       [ ("random_state", AInt random_state); ("n_jobs", AInt (-1)) ]);
    ("xgb", mkTemplate "XGBRegressor"
       [ ("seed", AInt random_state) ]) ].

Definition decades : list float :=
  [1e-04; 1e-03; 1e-02; 1e-01; 1e+00; 1e+01; 1e+02; 1e+03; 1e+04]%float.

Definition fractions : list float := [0.6; 0.7; 0.8; 0.9; 1.0]%float.

(** The dictionary [param_distributions] of [main]. *)
Definition param_distributions : list (string * list (string * distribution)) :=
  [ ("svm", [ ("C", choices decades); ("gamma", choices decades) ]);
    ("rf", [ ("max_depth", randint 1 10);
             ("max_features", randint 5 33);
             ("n_estimators", randint 10 100) ]);
    ("xgb", [ ("colsample_bylevel", choices fractions);
              ("colsample_bytree", choices fractions);
              ("gamma", uniform 0.0 1.0);
              ("learning_rate", uniform 0.0 1.0);
              ("max_delta_step", randint 1 5);
              ("max_depth", randint 1 10);
              ("min_child_weight", randint 1 10);
              ("n_estimators", randint 100 500);
              ("subsample", choices fractions) ]) ].

(** [d[key]] on a dictionary literal. *)
Fixpoint subscript {A} (d : list (string * A)) (key : string) : exn + A :=
  match d with
  | [] => inl (KeyError key)
  | (k, a) :: rest => if String.eqb k key then inr a else subscript rest key
  end.

(** [n_samples, n_features = X_train.shape] *)
Definition shape (X : matrix) : exn + (Z * Z) :=
  match X with
  | [] => inl (ValueError "not enough values to unpack (expected 2, got 1)")
  | r :: rs =>
      if forallb (fun r' => Nat.eqb (length r') (length r)) rs
      then inr (Z.of_nat (length X), Z.of_nat (length r))
      else inl (ValueError "not enough values to unpack (expected 2, got 1)")
  end.

Definition estimators_dir : string := "./resources/estimators/".
Definition importance_path : string := "./documents/pictures/feature_importances.png".

Section Main.
Context `{Libraries}.

(** [dump(value, filename)] of joblib: the object as it is at the call;
    writing the file can raise. *)
Definition dump (l : loc) (filename : string) : M unit :=
  o ← deref l;
  log (call_dump o filename);;
  lift (dump_outcome o filename).

(** The body of [for clf_name in clf_names]. *)
Definition search_family (X_train : matrix) (Y_train : vector)
    (clf_name : string) : M unit :=
  base ← lift (subscript estimator clf_name);
  distributions ← lift (subscript param_distributions clf_name);
  log (call_RandomizedSearchCV_fit clf_name);;
  best ← lift (RandomizedSearchCV_fit base distributions "r2"
                 (mkShuffleSplit n_splits_main
                    test_size_main
                    random_state)
                 random_state 81 1 (-1) X_train Y_train);
  best_estimator ← new_object best;
  (if String.eqb clf_name "rf"
   then plot_feature_importance best_estimator importance_path
   else ret tt);;
  dump best_estimator (estimators_dir ++ clf_name ++ ".pkl").

Fixpoint for_each (clf_names : list string) (body : string -> M unit) : M unit :=
  match clf_names with
  | [] => ret tt
  | clf_name :: rest => body clf_name;; for_each rest body
  end.

(** [main], with the two unpickled arrays and the list [clf_names] (the
    source's "only what is to be trained goes in this list") as
    arguments. *)
Definition main_with (X_train : matrix) (Y_train : vector)
    (clf_names : list string) : M unit :=
  _ ← lift (shape X_train);
  for_each clf_names (search_family X_train Y_train).

Definition clf_names : list string := ["svm"].

Definition main (X_train : matrix) (Y_train : vector) : M unit :=
  main_with X_train Y_train clf_names.

End Main.

(** ** Notions used in the statements *)

(** The result of [m] and the heap it leaves are functions of the heap it
    starts from: the trace is written, never read. *)
Definition reads_heap {A} (m : M A) : Prop :=
  forall w1 w2, heap w1 = heap w2 ->
    (m w1).1 = (m w2).1 /\ heap (m w1).2 = heap (m w2).2.

(** [m] leaves every object as it is. *)
Definition keeps_heap {A} (m : M A) : Prop :=
  forall w r w', m w = (r, w') -> heap w' = heap w.

(** Every object of [w] is unchanged in [w']; [w'] may hold new ones. *)
Definition extends (w w' : world) : Prop :=
  forall l, is_Some (heap w !! l) -> heap w' !! l = heap w !! l.

(** The object after [set_params] has stored the entries of [d] on it. *)
Definition apply_params (o : obj) (d : config) : obj :=
  foldl (fun o' p => set_obj o' p.1 (VAtom p.2)) o d.

(** The adapter as [__init__] leaves it. *)
Definition new_adapter (estimator space n_iter scoring cv n_jobs verbose : value)
    : obj :=
  set_obj (set_obj (set_obj (set_obj (set_obj (set_obj (set_obj
    (mkObj "HyperoptSearchCV"
       ["estimator"; "space"; "n_iter"; "scoring"; "cv"; "n_jobs"; "verbose"] ∅)
    "estimator" estimator) "space" space) "n_iter" n_iter) "scoring" scoring)
    "cv" cv) "n_jobs" n_jobs) "verbose" verbose.

(** Every name in [kwargs] is a parameter of the constructor of [o]. *)
Definition accepts (o : obj) (kwargs : config) : Prop :=
  Forall (fun p => p.1 ∈ init_params o) kwargs.

(** The wrapped estimator is an object of [w] that accepts [kwargs]. *)
Definition configurable (w : world) (estimator : value) (kwargs : config) : Prop :=
  exists l o, estimator = VRef l /\ heap w !! l = Some o /\ accepts o kwargs.

(** The calls [plot_feature_importance] makes when it completes. *)
Definition drawing (importances : vector) (path : string) : list event :=
  [ call_set_style;
    call_rcParams_set "font.family" "Times New Roman";
    call_subplots;
    call_bar (map Z.of_nat (seq 0 (length importances))) importances;
    call_set_xlim 0 (Z.of_nat (length importances));
    call_set_ylim 0 0.02;
    call_set_xlabel "Features";
    call_set_ylabel "Feature importance";
    call_savefig path ].

(** Importances that are not a one-dimensional array but may have a
    [size]. *)
Definition unusual (v : value) : Prop :=
  match v with
  | VArray2 _ | VRef _ => True
  | _ => False
  end.

(** [chart] is what a completed [plot_feature_importance] of the model
    [best] adds to the trace: the bars of its importances, saved to
    [path] without an error. *)
Definition chart_of `{Libraries} (best : obj) (path : string)
    (chart : list event) : Prop :=
  (exists importances,
     attrs best !! "feature_importances_" = Some (VArray1 importances) /\
     savefig_outcome importances path = inr tt /\
     chart = drawing importances path) \/
  (exists v,
     attrs best !! "feature_importances_" = Some v /\
     unusual v /\
     draw_unusual v path = inr tt /\
     chart = [call_set_style;
              call_rcParams_set "font.family" "Times New Roman";
              call_subplots;
              call_draw_unusual v path]).

(** The events [evs] of one family of [main]'s loop: the search, for
    [rf] the chart of the best estimator and for the other families
    nothing, and last the best estimator dumped, without an error, under
    the family's name. *)
Definition family_step `{Libraries} (X_train : matrix) (Y_train : vector)
    (clf_name : string) (evs : list event) : Prop :=
  exists base dists best chart,
    subscript estimator clf_name = inr base /\
    subscript param_distributions clf_name = inr dists /\
    RandomizedSearchCV_fit base dists "r2"
      (mkShuffleSplit 5 test_size_main 1) 1 81 1 (-1) X_train Y_train
      = inr best /\
    dump_outcome best ("./resources/estimators/" ++ clf_name ++ ".pkl") = inr tt /\
    evs = (call_RandomizedSearchCV_fit clf_name :: chart ++
           [call_dump best ("./resources/estimators/" ++ clf_name ++ ".pkl")])%list /\
    (clf_name = "rf" ->
     chart_of best "./documents/pictures/feature_importances.png" chart) /\
    (clf_name <> "rf" -> chart = []).

(** The family [clf_name] is in both dictionaries, its randomized search
    returns a best estimator, for [rf] the chart of that estimator can be
    drawn and saved, and the estimator can be dumped. *)
Definition searchable `{Libraries} (X_train : matrix) (Y_train : vector)
    (clf_name : string) : Prop :=
  exists base dists best,
    subscript estimator clf_name = inr base /\
    subscript param_distributions clf_name = inr dists /\
    RandomizedSearchCV_fit base dists "r2"
      (mkShuffleSplit 5 test_size_main 1) 1 81 1 (-1) X_train Y_train
      = inr best /\
    (clf_name = "rf" ->
     exists chart,
       chart_of best "./documents/pictures/feature_importances.png" chart) /\
    dump_outcome best ("./resources/estimators/" ++ clf_name ++ ".pkl") = inr tt.

(** The adapter [so] has what the objective reads, the estimator being
    the object at [l]. *)
Definition objective_ready (so : obj) (l : loc) : Prop :=
  attrs so !! "estimator" = Some (VRef l) /\
  is_Some (attrs so !! "X_") /\
  is_Some (attrs so !! "y_") /\
  is_Some (attrs so !! "scoring") /\
  is_Some (attrs so !! "cv") /\
  is_Some (attrs so !! "n_jobs") /\
  is_Some (attrs so !! "verbose").

(** ** A small instance to run the code on *)

Module Sample.

Definition count (v : vector) : float :=
  fold_right (fun _ n => (n + 1)%float) 0%float v.

Definition mean (v : vector) : float := (fold_right add 0 v / count v)%float.

(** The first trial with the least loss. *)
Fixpoint least (best : config * float) (rest : list (config * float)) : config :=
  match rest with
  | [] => best.1
  | t :: rest' => if (t.2 <? best.2)%float then least t rest' else least best rest'
  end.

Definition argmin (history : list (config * float)) : exn + config :=
  match history with
  | [] => inl (ValueError "attempt to get argmin of an empty sequence")
  | t :: rest => inr (least t rest)
  end.

Definition kwargs0 : config := [("C", AFloat 10); ("gamma", AFloat 0.5)].

(** A search that returns its template with the keyword arguments as
    attributes and, for the forest, importances. *)
Definition searched (t : template) : obj :=
  mkObj (t_cls t) (map fst (t_kwargs t))
    (if String.eqb (t_cls t) "RandomForestRegressor"
     then {[ "feature_importances_" := VArray1 [0.75; 0.25]%float ]}
     else ∅).

#[export] Instance libs : Libraries := {|
  suggest := fun _ _ => kwargs0;
  trials_argmin := argmin;
  cross_val_score := fun _ _ _ _ _ _ _ => inr [0.5; 0.75]%float;
  estimator_fit := fun o _ Y => inr (<["trained_on_" := Y]> (attrs o));
  estimator_predict := fun o X =>
    match attrs o !! "trained_on_" with
    | Some _ => inr (map (fun _ => 0%float) X)
    | None => inl NotFittedError
    end;
  RandomizedSearchCV_fit := fun t _ _ _ _ _ _ _ _ _ => inr (searched t);
  np_mean := mean;
  dump_outcome := fun _ _ => inr tt;
  savefig_outcome := fun _ _ => inr tt;
  draw_unusual := fun _ _ => inl (TypeError "only size-1 arrays can be converted")
|}.

Definition svr : obj :=
  mkObj "SVR" ["C"; "gamma"; "epsilon"]
    {[ "C" := VAtom (AFloat 1); "gamma" := VAtom (AStr "auto");
       "epsilon" := VAtom (AFloat 0.1) ]}.

(** A world with one estimator, at location 0. *)
Definition w0 : world := mkWorld {[ 0%nat := svr ]} [].

Definition space0 : value := VDict [("C", AStr "loguniform"); ("gamma", AStr "loguniform")].

(** [HyperoptSearchCV(svr, space0, n_iter=2)]: the adapter is at location 1. *)
Definition w_new : world :=
  (HyperoptSearchCV.__init__ (VRef 0%nat) space0 (VAtom (AInt 2))
     HyperoptSearchCV.default_scoring HyperoptSearchCV.default_cv
     HyperoptSearchCV.default_n_jobs HyperoptSearchCV.default_verbose w0).2.

Definition self0 : loc := 1%nat.

Definition X0 : matrix := [[1]; [2]; [3]]%float.
Definition Y0 : vector := [3; 6; 9]%float.

(** Ten feature rows and nine target values. *)
Definition X10 : matrix := replicate 10 [1%float].
Definition Y9 : vector := replicate 9 1%float.

(** The world in which [fmin] calls the objective during
    [fit(X0, Y0)] on the new adapter. *)
Definition w_search : world :=
  mkWorld
    (heap (setattr self0 "Y_" (VArray1 Y0)
             (setattr self0 "X_" (VArray2 X0) w_new).2).2)
    [call_fmin space0 (VAtom (AInt 2))].

(** The new adapter after the caller has also bound [y_] by hand. *)
Definition w_patched : world := (setattr self0 "y_" (VArray1 Y0) w_new).2.

Definition patched_adapter : obj :=
  set_obj
    (new_adapter (VRef 0%nat) space0 (VAtom (AInt 2))
       HyperoptSearchCV.default_scoring HyperoptSearchCV.default_cv
       HyperoptSearchCV.default_n_jobs HyperoptSearchCV.default_verbose)
    "y_" (VArray1 Y0).

Definition w_fitted : world := (HyperoptSearchCV.fit self0 X0 Y0 w_patched).2.

(** [main]'s loop over two families. *)
Definition w_main : world := (main_with X0 Y0 ["svm"; "rf"] w0).2.

End Sample.

(** The reading of the refit as a copy: [best_estimator_] is another
    object than the stored estimator, and the stored estimator is as it
    was before [fit]. *)
Definition refit_on_fresh_copy (w : world) (self : loc) (w' : world) : Prop :=
  exists l l',
    attr_of w self "estimator" = Some (VRef l) /\
    attr_of w' self "best_estimator_" = Some (VRef l') /\
    l' <> l /\
    heap w' !! l = heap w !! l.


(** [m] only adds events to the trace, and each one satisfies [P]. *)
Definition appends (P : event -> Prop) {A} (m : M A) : Prop :=
  forall w r w', m w = (r, w') ->
    exists evs, trace w' = (trace w ++ evs)%list /\ Forall P evs.

(** Every event but [dump]. *)
Definition not_dump (ev : event) : Prop :=
  match ev with
  | call_dump _ _ => False
  | _ => True
  end.


(** Further runs on the sample. *)
Module Runs.
Import Sample.

(** The patched adapter with the data bound, as the search finds it. *)
Definition w_ready : world :=
  (setattr self0 "Y_" (VArray1 Y0)
     (setattr self0 "X_" (VArray2 X0) w_patched).2).2.

Definition w_scored : world :=
  (HyperoptSearchCV.__objective self0 kwargs0 w_ready).2.

Definition w_searched : world :=
  (fmin (HyperoptSearchCV.__objective self0) space0 (VAtom (AInt 2)) w_ready).2.



Definition w_svm : world := (main_with X0 Y0 ["svm"] w0).2.


End Runs.
(** * Properties *)

Local Open Scope list_scope.

(** ** Running the monad *)

Lemma bind_ok {A B} (m : M A) (k : A -> M B) w a w1 :
  m w = (Ok a, w1) -> (m ≫= k) w = k a w1.
Proof. intros Hm. unfold mbind, M_bind, bind. by rewrite Hm. Qed.

Lemma bind_raise {A B} (m : M A) (k : A -> M B) w e w1 :
  m w = (Raise e, w1) -> (m ≫= k) w = (Raise e, w1).
Proof. intros Hm. unfold mbind, M_bind, bind. by rewrite Hm. Qed.

Lemma bind_inv_ok {A B} (m : M A) (k : A -> M B) w b w' :
  (m ≫= k) w = (Ok b, w') ->
  exists a w1, m w = (Ok a, w1) /\ k a w1 = (Ok b, w').
Proof.
  unfold mbind, M_bind, bind.
  destruct (m w) as [[a|e] w1]; [eauto | discriminate].
Qed.

Lemma bind_inv {A B} (m : M A) (k : A -> M B) w r w' :
  (m ≫= k) w = (r, w') ->
  (exists a w1, m w = (Ok a, w1) /\ k a w1 = (r, w')) \/
  (exists e, m w = (Raise e, w') /\ r = Raise e).
Proof.
  unfold mbind, M_bind, bind.
  destruct (m w) as [[a|e] w1]; intros Hk.
  - left. eauto.
  - right. exists e. by inversion Hk.
Qed.

Lemma lift_inv_ok {A} (r : exn + A) w a w' :
  lift r w = (Ok a, w') -> r = inr a /\ w' = w.
Proof. destruct r; cbn; intros Hr; by inversion Hr. Qed.

Lemma lift_world {A} (r : exn + A) w x w' : lift r w = (x, w') -> w' = w.
Proof. destruct r; cbn; intros Hr; by inversion Hr. Qed.

Lemma log_inv ev w r w' :
  log ev w = (r, w') -> r = Ok tt /\ w' = mkWorld (heap w) (trace w ++ [ev]).
Proof. intros Hl. by inversion Hl. Qed.

(** ** Attribute access *)

Lemma deref_inv {w l r w'} :
  deref l w = (r, w') ->
  w' = w /\
  ((exists o, heap w !! l = Some o /\ r = Ok o) \/
   (heap w !! l = None /\ r = Raise (TypeError "not an object"))).
Proof.
  unfold deref. destruct (heap w !! l) as [o|]; intros Hr; inversion Hr; eauto.
Qed.

Lemma deref_some w l o : heap w !! l = Some o -> deref l w = (Ok o, w).
Proof. unfold deref. by intros ->. Qed.

Lemma getattr_some w l o name v :
  heap w !! l = Some o -> attrs o !! name = Some v ->
  getattr l name w = (Ok v, w).
Proof.
  intros Hl Hn. unfold getattr.
  rewrite (bind_ok _ _ _ _ _ (deref_some _ _ _ Hl)). by rewrite Hn.
Qed.

Lemma getattr_none w l o name :
  heap w !! l = Some o -> attrs o !! name = None ->
  getattr l name w = (Raise (AttributeError name), w).
Proof.
  intros Hl Hn. unfold getattr.
  rewrite (bind_ok _ _ _ _ _ (deref_some _ _ _ Hl)). by rewrite Hn.
Qed.

Lemma getattr_world w l name r w' : getattr l name w = (r, w') -> w' = w.
Proof.
  unfold getattr. intros Hg.
  apply bind_inv in Hg as [(o & w1 & Hd & Hk)|(e & Hd & _)].
  - apply deref_inv in Hd as [-> _].
    destruct (attrs o !! name); cbn in Hk; by inversion Hk.
  - by apply deref_inv in Hd as [-> _].
Qed.

Lemma getattr_inv_ok w l name v w' :
  getattr l name w = (Ok v, w') ->
  w' = w /\ exists o, heap w !! l = Some o /\ attrs o !! name = Some v.
Proof.
  unfold getattr. intros Hg.
  apply bind_inv_ok in Hg as (o & w1 & Hd & Hk).
  apply deref_inv in Hd as [-> [(o' & Hl & Ho)|[_ Ho]]]; [|discriminate].
  inversion Ho; subst o'.
  destruct (attrs o !! name) as [v'|] eqn:Hn; cbn in Hk; inversion Hk; subst.
  eauto.
Qed.

Lemma setattr_some w l o name v :
  heap w !! l = Some o ->
  setattr l name v w = (Ok tt, mkWorld (<[l := set_obj o name v]> (heap w)) (trace w)).
Proof.
  intros Hl. unfold setattr.
  by rewrite (bind_ok _ _ _ _ _ (deref_some _ _ _ Hl)).
Qed.

Lemma setattr_inv w l name v r w' :
  setattr l name v w = (r, w') ->
  (exists o, heap w !! l = Some o /\ r = Ok tt /\
             w' = mkWorld (<[l := set_obj o name v]> (heap w)) (trace w)) \/
  (heap w !! l = None /\ w' = w /\ exists e, r = Raise e).
Proof.
  unfold setattr. intros Hs.
  destruct (heap w !! l) as [o|] eqn:Hl.
  - left. exists o. rewrite (bind_ok _ _ _ _ _ (deref_some _ _ _ Hl)) in Hs.
    unfold store in Hs. by inversion Hs.
  - right. unfold mbind, M_bind, bind, deref in Hs. rewrite Hl in Hs.
    inversion Hs. eauto.
Qed.

Lemma delattr_inv_ok w l name u w' :
  delattr l name w = (Ok u, w') ->
  exists o, heap w !! l = Some o /\ is_Some (attrs o !! name) /\
            w' = mkWorld (<[l := del_obj o name]> (heap w)) (trace w).
Proof.
  unfold delattr. intros Hd.
  apply bind_inv_ok in Hd as (o & w1 & Hd & Hk).
  apply deref_inv in Hd as [-> [(o' & Hl & Ho)|[_ Ho]]]; [|discriminate].
  inversion Ho; subst o'. exists o.
  destruct (attrs o !! name) as [v|] eqn:Hn; [|discriminate].
  unfold store in Hk. inversion Hk. eauto.
Qed.

Lemma hasattr_true w l name :
  hasattr w l name = true <-> is_Some (attr_of w l name).
Proof.
  unfold hasattr, attr_of. destruct (heap w !! l) as [o|]; cbn.
  - by rewrite bool_decide_eq_true.
  - split; [discriminate | by intros [? ?]].
Qed.

Lemma hasattr_false w l name :
  hasattr w l name = false <-> attr_of w l name = None.
Proof.
  rewrite <- not_true_iff_false, hasattr_true, <- eq_None_not_Some. done.
Qed.

(** ** Computations that leave the heap alone *)

Lemma keeps_heap_bind {A B} (m : M A) (k : A -> M B) :
  keeps_heap m -> (forall a, keeps_heap (k a)) -> keeps_heap (m ≫= k).
Proof.
  intros Hm Hk w r w' Hr.
  apply bind_inv in Hr as [(a & w1 & Ha & Hr)|(e & Ha & _)].
  - rewrite (Hk _ _ _ _ Hr). eauto.
  - eauto.
Qed.

Lemma keeps_heap_ret {A} (a : A) : keeps_heap (ret a).
Proof. intros w r w' Hr. by inversion Hr. Qed.

Lemma keeps_heap_raise {A} (e : exn) : keeps_heap (@raise A e).
Proof. intros w r w' Hr. by inversion Hr. Qed.

Lemma keeps_heap_lift {A} (r : exn + A) : keeps_heap (lift r).
Proof. destruct r; [apply keeps_heap_raise | apply keeps_heap_ret]. Qed.

Lemma keeps_heap_log ev : keeps_heap (log ev).
Proof. intros w r w' Hr. by inversion Hr. Qed.

Lemma keeps_heap_deref l : keeps_heap (deref l).
Proof. intros w r w' Hr. by apply deref_inv in Hr as [-> _]. Qed.

Lemma keeps_heap_getattr l name : keeps_heap (getattr l name).
Proof. intros w r w' Hr. by apply getattr_world in Hr as ->. Qed.

Lemma keeps_heap_check_is_fitted l names : keeps_heap (check_is_fitted l names).
Proof.
  intros w r w' Hr. unfold check_is_fitted in Hr. case_match; by inversion Hr.
Qed.

Create HintDb keeps.

#[local] Hint Resolve keeps_heap_ret keeps_heap_raise keeps_heap_lift
  keeps_heap_log keeps_heap_deref keeps_heap_getattr
  keeps_heap_check_is_fitted : keeps.

Ltac keeps :=
  repeat first
    [ apply keeps_heap_bind; [solve [auto with keeps]|intros ?]
    | solve [auto with keeps] ].

(** ** Worlds that only grow *)

Lemma extends_refl w : extends w w.
Proof. by intros l _. Qed.

Lemma extends_trans w1 w2 w3 : extends w1 w2 -> extends w2 w3 -> extends w1 w3.
Proof.
  intros H12 H23 l Hl. rewrite H23; [by apply H12|].
  by rewrite H12.
Qed.

Lemma extends_same_heap w w' : heap w' = heap w -> extends w w'.
Proof. intros Hh l _. by rewrite Hh. Qed.

Lemma new_object_inv o w r w' :
  new_object o w = (r, w') ->
  exists l, r = Ok l /\ heap w !! l = None /\
            w' = mkWorld (<[l := o]> (heap w)) (trace w).
Proof.
  unfold new_object. intros Hn. inversion Hn; subst.
  eexists. split; [done|]. split; [|done].
  apply not_elem_of_dom. apply is_fresh.
Qed.

Lemma set_each_frame l valid d w r w' :
  set_each l valid d w = (r, w') ->
  trace w' = trace w /\ forall l0, l0 <> l -> heap w' !! l0 = heap w !! l0.
Proof.
  revert w. induction d as [|[key a] d IH]; intros w; cbn.
  - intros Hr. by inversion Hr.
  - case_bool_decide; [|intros Hr; by inversion Hr].
    intros Hr.
    apply bind_inv in Hr as [(u & w1 & Hs & Hr)|(e & Hs & _)].
    + apply IH in Hr as [Ht Hh].
      apply setattr_inv in Hs as [(o & Hl & _ & ->)|(_ & -> & _)]; [|done].
      split; [done|]. intros l0 Hne. rewrite Hh by done.
      cbn. by rewrite lookup_insert_ne.
    + apply setattr_inv in Hs as [(o & Hl & _ & ->)|(_ & -> & _)]; [|done].
      split; [done|]. intros l0 Hne. cbn. by rewrite lookup_insert_ne.
Qed.

Lemma set_each_valid l valid d w o :
  heap w !! l = Some o ->
  Forall (fun p => p.1 ∈ valid) d ->
  set_each l valid d w =
    (Ok tt, mkWorld (<[l := apply_params o d]> (heap w)) (trace w)).
Proof.
  revert w o. induction d as [|[key a] d IH]; intros w o Hl Hd; cbn.
  - unfold ret. rewrite insert_id by done. by destruct w.
  - inversion Hd as [|? ? Hk Hd']; subst. cbn in Hk.
    rewrite bool_decide_true by done.
    rewrite (bind_ok _ _ _ _ _ (setattr_some _ _ _ key (VAtom a) Hl)).
    rewrite (IH _ (set_obj o key (VAtom a))); [|cbn; apply lookup_insert_eq|done].
    cbn. by rewrite insert_insert_eq.
Qed.

Lemma set_each_inv_ok l valid d w u w' o :
  heap w !! l = Some o ->
  set_each l valid d w = (Ok u, w') ->
  w' = mkWorld (<[l := apply_params o d]> (heap w)) (trace w).
Proof.
  revert w o. induction d as [|[key a] d IH]; intros w o Hl; cbn.
  - intros Hr. inversion Hr; subst w'. rewrite insert_id by done. by destruct w.
  - case_bool_decide; [|discriminate]. intros Hr.
    apply bind_inv_ok in Hr as (u' & w1 & Hs & Hr).
    rewrite (setattr_some _ _ _ _ _ Hl) in Hs. inversion Hs; subst w1.
    eapply IH in Hr; [|cbn; apply lookup_insert_eq].
    rewrite Hr. cbn. by rewrite insert_insert_eq.
Qed.

Lemma clone_inv v w r w' :
  clone v w = (r, w') ->
  trace w' = trace w /\ extends w w' /\
  forall c, r = Ok c ->
    exists l', c = VRef l' /\ heap w !! l' = None /\ is_Some (heap w' !! l') /\
               forall l0, l0 <> l' -> heap w' !! l0 = heap w !! l0.
Proof.
  unfold clone. destruct v;
    try (intros Hr; inversion Hr; subst;
         split; [done|split; [apply extends_refl|intros ? [=]]]).
  intros Hr.
  apply bind_inv in Hr as [(o & w1 & Hd & Hr)|(e & Hd & ->)]; cycle 1.
  { apply deref_inv in Hd as [-> _].
    split; [done|split; [apply extends_refl|intros ? [=]]]. }
  apply deref_inv in Hd as [-> _].
  apply bind_inv in Hr as [(l' & w1 & Hn & Hr)|(e & Hn & _)]; cycle 1.
  { apply new_object_inv in Hn as (? & [=] & _). }
  apply new_object_inv in Hn as (l'' & [= <-] & Hfresh & ->).
  inversion Hr; subst. cbn.
  assert (forall l0, l0 <> l' -> <[l' := mkObj (cls o) (init_params o) (get_params o)]> (heap w) !! l0 = heap w !! l0) as Hother.
  { intros l0 Hne. by rewrite lookup_insert_ne. }
  split; [done|]. split.
  - intros l0 [x Hl0]. cbn. apply Hother. intros ->. congruence.
  - intros c [= <-]. exists l'. rewrite lookup_insert_eq. eauto.
Qed.

Lemma set_params_frame l p w r w' :
  set_params (VRef l) p w = (r, w') ->
  trace w' = trace w /\ forall l0, l0 <> l -> heap w' !! l0 = heap w !! l0.
Proof.
  unfold set_params. destruct p; try (intros Hr; by inversion Hr).
  intros Hr.
  apply bind_inv in Hr as [(o & w1 & Hd & Hr)|(e & Hd & _)]; cycle 1.
  { by apply deref_inv in Hd as [-> _]. }
  apply deref_inv in Hd as [-> _].
  apply bind_inv in Hr as [(u & w1 & Hs & Hr)|(e & Hs & _)].
  - inversion Hr; subst. by apply set_each_frame in Hs.
  - by apply set_each_frame in Hs.
Qed.

(** ** Input validation *)

Lemma check_array_inv X :
  (exists msg, check_array X = inl (ValueError msg)) \/ check_array X = inr X.
Proof.
  unfold check_array. destruct X as [|r rs]; [eauto|].
  repeat case_match; eauto.
Qed.

Lemma check_X_y_inv X Y :
  (exists msg, check_X_y X Y = inl (ValueError msg)) \/
  (check_X_y X Y = inr (X, Y) /\ length X = length Y).
Proof.
  unfold check_X_y.
  destruct (check_array_inv X) as [[msg ->]| ->]; [eauto|].
  destruct (forallb is_finite Y); cbn; [|eauto].
  destruct (Nat.eqb (length X) (length Y)) eqn:Hlen; cbn; [|eauto].
  right. split; [done|]. by apply Nat.eqb_eq.
Qed.


(** ** Computations that read the heap only *)

Lemma reads_heap_bind {A B} (m : M A) (k : A -> M B) :
  reads_heap m -> (forall a, reads_heap (k a)) -> reads_heap (m ≫= k).
Proof.
  intros Hm Hk w1 w2 Hh. unfold mbind, M_bind, bind.
  destruct (Hm w1 w2 Hh) as [Hr Hh'].
  destruct (m w1) as [[a1|e1] w1'], (m w2) as [[a2|e2] w2']; cbn in *;
    simplify_eq; auto.
  by apply Hk.
Qed.

Lemma reads_heap_ret {A} (a : A) : reads_heap (ret a).
Proof. by intros w1 w2 Hh. Qed.

Lemma reads_heap_raise {A} (e : exn) : reads_heap (@raise A e).
Proof. by intros w1 w2 Hh. Qed.

Lemma reads_heap_lift {A} (r : exn + A) : reads_heap (lift r).
Proof. destruct r; [apply reads_heap_raise | apply reads_heap_ret]. Qed.

Lemma reads_heap_log ev : reads_heap (log ev).
Proof. by intros w1 w2 Hh. Qed.

Lemma reads_heap_deref l : reads_heap (deref l).
Proof.
  intros w1 w2 Hh. unfold deref. rewrite Hh.
  by destruct (heap w2 !! l).
Qed.

Lemma reads_heap_getattr l name : reads_heap (getattr l name).
Proof.
  unfold getattr. apply reads_heap_bind; [apply reads_heap_deref|intros o].
  destruct (attrs o !! name); [apply reads_heap_ret | apply reads_heap_raise].
Qed.

Lemma reads_heap_check_is_fitted l names : reads_heap (check_is_fitted l names).
Proof.
  intros w1 w2 Hh. unfold check_is_fitted.
  replace (forallb (hasattr w1 l) names) with (forallb (hasattr w2 l) names).
  - by destruct (forallb (hasattr w2 l) names).
  - induction names as [|name names IH]; [done|]. cbn.
    rewrite IH. unfold hasattr. by rewrite Hh.
Qed.

Section Adapter.
Context `{Libraries}.

(** C3.  When the feature matrix and the target vector differ in their
    number of rows, [fit] raises the [ValueError] of [check_X_y] (the
    specification's ShapeMismatchError) and leaves the world as it found
    it: nothing was bound on the adapter and the trace has no new event,
    so [fmin] was not called. *)
Theorem fit_rejects_mismatched_rows (self : loc) (X : matrix) (Y : vector) (w : world) :
  length X <> length Y ->
  exists msg, HyperoptSearchCV.fit self X Y w = (Raise (ValueError msg), w).
Proof.
  intros Hlen. unfold HyperoptSearchCV.fit.
  destruct (check_X_y_inv X Y) as [[msg Hc]|[_ Heq]]; [|done].
  exists msg. apply bind_raise. by rewrite Hc.
Qed.

(** C4.  On an adapter that is not fitted ([best_params_] or
    [best_estimator_] is missing), [predict] raises [NotFittedError] and
    leaves the world as it found it: the trace has no new event, so no
    model's [predict] was called. *)
Theorem predict_before_fit_raises (self : loc) (X : matrix) (w : world) :
  HyperoptSearchCV.fitted w self = false ->
  HyperoptSearchCV.predict self X w = (Raise NotFittedError, w).
Proof.
  intros Hf. unfold HyperoptSearchCV.predict. apply bind_raise.
  unfold check_is_fitted. cbn [forallb].
  unfold HyperoptSearchCV.fitted in Hf. by rewrite andb_true_r, Hf.
Qed.

Lemma predict_estimator_heap v X w r w' :
  predict_estimator v X w = (r, w') -> heap w' = heap w.
Proof.
  unfold predict_estimator. destruct v; cbn; try (intros Hr; by inversion Hr).
  unfold mbind, M_bind, bind, deref, log.
  destruct (heap w !! l); [|intros Hr; by inversion Hr].
  cbn. destruct (estimator_predict o X); cbn; intros Hr; by inversion Hr.
Qed.

Lemma predict_heap self X w r w' :
  HyperoptSearchCV.predict self X w = (r, w') -> heap w' = heap w.
Proof.
  unfold HyperoptSearchCV.predict. intros Hp.
  apply bind_inv in Hp as [(u & w1 & Hc & Hp)|(e & Hc & _)]; cycle 1.
  { unfold check_is_fitted in Hc. case_match; by inversion Hc. }
  assert (w1 = w) as ->.
  { unfold check_is_fitted in Hc. case_match; by inversion Hc. }
  apply bind_inv in Hp as [(X' & w1 & Hc' & Hp)|(e & Hc' & _)]; cycle 1.
  { by apply lift_world in Hc' as ->. }
  apply lift_world in Hc' as ->.
  apply bind_inv in Hp as [(v & w1 & Hg & Hp)|(e & Hg & _)]; cycle 1.
  { by apply getattr_world in Hg as ->. }
  apply getattr_world in Hg as ->.
  by apply predict_estimator_heap in Hp.
Qed.

Lemma predict_result_heap self X : reads_heap (HyperoptSearchCV.predict self X).
Proof.
  unfold HyperoptSearchCV.predict.
  apply reads_heap_bind; [apply reads_heap_check_is_fitted|intros _].
  apply reads_heap_bind; [apply reads_heap_lift|intros X'].
  apply reads_heap_bind; [apply reads_heap_getattr|intros v].
  unfold predict_estimator. destruct v; try apply reads_heap_raise.
  apply reads_heap_bind; [apply reads_heap_deref|intros o].
  apply reads_heap_bind; [apply reads_heap_log|intros _].
  apply reads_heap_lift.
Qed.

(** C8.  On a fitted adapter two successive calls of [predict] with the
    same input end the same way (the same prediction vector, or the same
    exception when the input is rejected), the heap of objects is the
    same after each call, and the adapter is still fitted. *)
Theorem predict_twice_same_result (self : loc) (X : matrix) (w : world) :
  HyperoptSearchCV.fitted w self = true ->
  exists r w1 w2,
    HyperoptSearchCV.predict self X w = (r, w1) /\
    HyperoptSearchCV.predict self X w1 = (r, w2) /\
    heap w1 = heap w /\ heap w2 = heap w /\
    HyperoptSearchCV.fitted w1 self = true /\
    HyperoptSearchCV.fitted w2 self = true.
Proof.
  intros Hf.
  destruct (HyperoptSearchCV.predict self X w) as [r w1] eqn:H1.
  destruct (HyperoptSearchCV.predict self X w1) as [r2 w2] eqn:H2.
  pose proof (predict_heap _ _ _ _ _ H1) as Hh1.
  pose proof (predict_heap _ _ _ _ _ H2) as Hh2.
  destruct (predict_result_heap self X w1 w Hh1) as [Hr _].
  rewrite H1, H2 in Hr. cbn in Hr. subst r2.
  exists r, w1, w2. rewrite Hh1 in Hh2.
  repeat split; try done.
  - unfold HyperoptSearchCV.fitted, hasattr in *. by rewrite Hh1.
  - unfold HyperoptSearchCV.fitted, hasattr in *. by rewrite Hh2.
Qed.

End Adapter.

(** ** The feature-importance plot *)

Section PlotRaises.
Context `{Libraries}.

(** C10.  On a model without the attribute [feature_importances_],
    [plot_feature_importance] raises the [AttributeError] of the failed
    lookup (the specification's UnsupportedOperationError).  By then only
    the style, the font and an empty figure have been set up: no bar was
    drawn and [savefig] was not called, so no file was written. *)
Theorem plot_feature_importance_needs_attribute
    (clf : loc) (o : obj) (path : string) (w : world) :
  heap w !! clf = Some o ->
  attrs o !! "feature_importances_" = None ->
  plot_feature_importance clf path w =
    (Raise (AttributeError "feature_importances_"),
     mkWorld (heap w)
       (trace w ++ [call_set_style;
                    call_rcParams_set "font.family" "Times New Roman";
                    call_subplots])).
Proof.
  intros Hl Hn. unfold plot_feature_importance.
  unfold mbind at 1, M_bind at 1, bind at 1, log at 1. cbn.
  unfold mbind at 1, M_bind at 1, bind at 1, log at 1. cbn.
  unfold mbind at 1, M_bind at 1, bind at 1, log at 1. cbn.
  erewrite bind_raise; [|by eapply getattr_none].
  cbn. by rewrite <- !app_assoc.
Qed.

End PlotRaises.

(** ** The objective and the search *)

Lemma clone_ref w l o :
  heap w !! l = Some o ->
  clone (VRef l) w =
    (Ok (VRef (fresh (dom (heap w)))),
     mkWorld (<[fresh (dom (heap w)) := mkObj (cls o) (init_params o) (get_params o)]>
                (heap w)) (trace w)).
Proof.
  intros Hl. unfold clone.
  by rewrite (bind_ok _ _ _ _ _ (deref_some _ _ _ Hl)).
Qed.

Lemma set_params_valid w l o d :
  heap w !! l = Some o ->
  Forall (fun p => p.1 ∈ init_params o) d ->
  set_params (VRef l) (VDict d) w =
    (Ok (VRef l), mkWorld (<[l := apply_params o d]> (heap w)) (trace w)).
Proof.
  intros Hl Hd. unfold set_params.
  rewrite (bind_ok _ _ _ _ _ (deref_some _ _ _ Hl)).
  by rewrite (bind_ok _ _ _ _ _ (set_each_valid _ _ _ _ _ Hl Hd)).
Qed.

Lemma set_params_inv_ok v p w c w' :
  set_params v p w = (Ok c, w') ->
  exists l o d, v = VRef l /\ p = VDict d /\ c = VRef l /\
                heap w !! l = Some o /\
                w' = mkWorld (<[l := apply_params o d]> (heap w)) (trace w).
Proof.
  unfold set_params. destruct v; try discriminate.
  destruct p; try discriminate. intros Hr.
  apply bind_inv_ok in Hr as (o & w1 & Hd & Hr).
  apply deref_inv in Hd as [-> [(o' & Hl & [= <-])|[_ [=]]]].
  apply bind_inv_ok in Hr as (u & w1 & Hs & Hr).
  inversion Hr; subst.
  apply (set_each_inv_ok _ _ _ _ _ _ _ Hl) in Hs.
  exists l, o, d. eauto.
Qed.

Lemma apply_params_cls o d : cls (apply_params o d) = cls o.
Proof.
  revert o. induction d as [|p d IH]; intros o; [done|].
  cbn. by rewrite IH.
Qed.

Lemma apply_params_init_params o d : init_params (apply_params o d) = init_params o.
Proof.
  revert o. induction d as [|p d IH]; intros o; [done|].
  cbn. by rewrite IH.
Qed.

Section Search.
Context `{Libraries}.

(** The objective changes no object that existed before the call (it
    works on a clone), and without an attribute [y_] on the adapter it
    cannot return: it raises before [cross_val_score] is called. *)
Lemma objective_inv self kwargs w r w' :
  HyperoptSearchCV.__objective self kwargs w = (r, w') ->
  extends w w' /\
  (attr_of w self "y_" = None -> (exists e, r = Raise e) /\ trace w' = trace w).
Proof.
  unfold HyperoptSearchCV.__objective. intros Ho.
  apply bind_inv in Ho as [(est & w1 & Hg & Ho)|(e & Hg & ->)]; cycle 1.
  { apply getattr_world in Hg as ->. eauto using extends_refl. }
  apply getattr_inv_ok in Hg as [-> (so & Hself & Hest)].
  apply bind_inv in Ho as [(cl & w1 & Hc & Ho)|(e & Hc & ->)]; cycle 1.
  { apply clone_inv in Hc as (Ht & Hext & _). eauto. }
  apply clone_inv in Hc as (Ht1 & Hext1 & Hcl).
  destruct (Hcl cl eq_refl) as (l' & -> & Hfresh & Hnew & Hother).
  assert (forall w2 x, set_params (VRef l') (VDict kwargs) w1 = (x, w2) ->
            extends w w2 /\ trace w2 = trace w) as Hset.
  { intros w2 x Hs. apply set_params_frame in Hs as [Ht2 Hh2]. split.
    - intros l0 Hl0. rewrite Hh2; [by apply Hext1|].
      intros ->. rewrite Hfresh in Hl0. by destruct Hl0.
    - congruence. }
  apply bind_inv in Ho as [(cf & w2 & Hs & Ho)|(e & Hs & ->)]; cycle 1.
  { apply Hset in Hs as [? ?]. eauto. }
  apply Hset in Hs as [Hext2 Ht2].
  apply bind_inv in Ho as [(X_ & w3 & Hg & Ho)|(e & Hg & ->)]; cycle 1.
  { apply getattr_world in Hg as ->. eauto. }
  apply getattr_world in Hg as ->.
  apply bind_inv in Ho as [(y_ & w3 & Hg & Ho)|(e & Hg & ->)]; cycle 1.
  { apply getattr_world in Hg as ->. eauto. }
  apply getattr_inv_ok in Hg as [-> (so' & Hself' & Hy)].
  rewrite (Hext2 self) in Hself' by (by rewrite Hself).
  assert (so' = so) as -> by congruence.
  split.
  - eapply extends_trans; [done|]. apply extends_same_heap.
    revert Ho. generalize w2 r w'.
    change (keeps_heap (
      scoring ← getattr self "scoring";
      cv ← getattr self "cv";
      n_jobs ← getattr self "n_jobs";
      verbose ← getattr self "verbose";
      match cf with
      | VRef l =>
          o ← deref l;
          log (call_cross_val_score l);;
          scores ← lift (cross_val_score o X_ y_ scoring cv n_jobs verbose);
          ret (- np_mean scores)%float
      | _ => raise (TypeError "estimator should be an estimator implementing fit")
      end)).
    keeps. destruct cf; keeps.
  - unfold attr_of. rewrite Hself. cbn. congruence.
Qed.

Lemma objective_extends self kwargs w r w' :
  HyperoptSearchCV.__objective self kwargs w = (r, w') -> extends w w'.
Proof. intros Ho. by apply objective_inv in Ho as [? _]. Qed.

Lemma run_trials_extends fn space n history w r w' :
  (forall kwargs w0 r0 w0', fn kwargs w0 = (r0, w0') -> extends w0 w0') ->
  run_trials fn space n history w = (r, w') -> extends w w'.
Proof.
  intros Hfn. revert history w.
  induction n as [|n IH]; intros history w; cbn.
  - intros Hr. inversion Hr. apply extends_refl.
  - intros Hr.
    apply bind_inv in Hr as [(loss & w1 & Hf & Hr)|(e & Hf & _)].
    + eapply extends_trans; [by eapply Hfn|by eapply IH].
    + by eapply Hfn.
Qed.

Lemma fmin_extends fn space max_evals w r w' :
  (forall kwargs w0 r0 w0', fn kwargs w0 = (r0, w0') -> extends w0 w0') ->
  fmin fn space max_evals w = (r, w') -> extends w w'.
Proof.
  intros Hfn. unfold fmin. intros Hr.
  apply bind_inv in Hr as [(u & w1 & Hl & Hr)|(e & Hl & _)]; [|by inversion Hl].
  assert (extends w w1) as Hw1.
  { apply extends_same_heap. by inversion Hl. }
  eapply extends_trans; [done|].
  destruct max_evals as [[]| | | |]; try (inversion Hr; apply extends_refl).
  apply bind_inv in Hr as [(h & w2 & Ht & Hr)|(e & Ht & _)];
    [|by eapply run_trials_extends].
  eapply extends_trans; [by eapply run_trials_extends|].
  apply extends_same_heap.
  apply bind_inv in Hr as [(b & w3 & Ha & Hr)|(e & Ha & _)].
  - apply lift_world in Ha as ->. by inversion Hr.
  - by apply lift_world in Ha as ->.
Qed.

Lemma fmin_inv_ok fn space max_evals w r w' :
  fmin fn space max_evals w = (Ok r, w') -> exists d, r = VDict d.
Proof.
  unfold fmin. intros Hr.
  apply bind_inv_ok in Hr as (u & w1 & _ & Hr).
  destruct max_evals as [[]| | | |]; try discriminate.
  apply bind_inv_ok in Hr as (h & w2 & _ & Hr).
  apply bind_inv_ok in Hr as (b & w3 & _ & Hr).
  inversion Hr. eauto.
Qed.

Lemma fmin_ok_search fn space max_evals w r w' :
  fmin fn space max_evals w = (Ok r, w') ->
  exists n history d,
    max_evals = VAtom (AInt n) /\
    run_trials fn space (Z.to_nat n) []
      (mkWorld (heap w) (trace w ++ [call_fmin space max_evals]))
      = (Ok history, w') /\
    trials_argmin history = inr d /\
    r = VDict d.
Proof.
  unfold fmin. intros Hr.
  apply bind_inv_ok in Hr as (u & w1 & Hlog & Hr).
  apply log_inv in Hlog as [_ ->].
  destruct max_evals as [[]| | | |]; try discriminate.
  apply bind_inv_ok in Hr as (h & w2 & Hrun & Hr).
  apply bind_inv_ok in Hr as (b & w3 & Ha & Hr).
  apply lift_inv_ok in Ha as [Ha ->]. inversion Hr; subst.
  eexists _, h, b. by repeat split.
Qed.

End Search.

(** ** A successful [fit], step by step *)

Lemma setattr_inv_ok w l name v u w' :
  setattr l name v w = (Ok u, w') ->
  exists o, heap w !! l = Some o /\
            heap w' !! l = Some (set_obj o name v) /\
            (forall l0, l0 <> l -> heap w' !! l0 = heap w !! l0) /\
            trace w' = trace w.
Proof.
  intros Hs.
  apply setattr_inv in Hs as [(o & Hl & _ & ->)|(_ & _ & e & [=])].
  exists o. cbn. rewrite lookup_insert_eq. repeat split; try done.
  intros l0 Hne. by rewrite lookup_insert_ne.
Qed.

Lemma delattr_inv_ok' w l name u w' :
  delattr l name w = (Ok u, w') ->
  exists o, heap w !! l = Some o /\
            heap w' !! l = Some (del_obj o name) /\
            (forall l0, l0 <> l -> heap w' !! l0 = heap w !! l0).
Proof.
  intros Hd. apply delattr_inv_ok in Hd as (o & Hl & _ & ->).
  exists o. cbn. rewrite lookup_insert_eq. repeat split; try done.
  intros l0 Hne. by rewrite lookup_insert_ne.
Qed.

Lemma setattr_at h t l o name v :
  setattr l name v (mkWorld (<[l := o]> h) t) =
    (Ok tt, mkWorld (<[l := set_obj o name v]> h) t).
Proof.
  erewrite setattr_some; [|cbn; apply lookup_insert_eq].
  cbn. by rewrite insert_insert_eq.
Qed.

Section Fit.
Context `{Libraries}.

Lemma fit_estimator_inv_ok v X Y w c w' :
  fit_estimator v X Y w = (Ok c, w') ->
  exists l o fattrs,
    v = VRef l /\ c = VRef l /\ heap w !! l = Some o /\
    estimator_fit o X Y = inr fattrs /\
    heap w' !! l = Some (mkObj (cls o) (init_params o) fattrs) /\
    (forall l0, l0 <> l -> heap w' !! l0 = heap w !! l0).
Proof.
  unfold fit_estimator. destruct v; try discriminate. intros Hr.
  apply bind_inv_ok in Hr as (o & w1 & Hd & Hr).
  apply deref_inv in Hd as [-> [(o' & Hl & [= <-])|[_ [=]]]].
  apply bind_inv_ok in Hr as (u & w1 & Hlog & Hr).
  inversion Hlog; subst w1; clear Hlog.
  apply bind_inv_ok in Hr as (fattrs & w1 & Hf & Hr).
  apply lift_inv_ok in Hf as [Hf ->].
  apply bind_inv_ok in Hr as (u' & w1 & Hs & Hr).
  inversion Hs; subst w1; clear Hs. inversion Hr; subst; clear Hr.
  exists l, o, fattrs. cbn. rewrite lookup_insert_eq. repeat split; try done.
  intros l0 Hne. by rewrite lookup_insert_ne.
Qed.

(** What a successful [fit] has done, when the wrapped estimator is an
    object other than the adapter: the search that gave the
    configuration, and the objects it leaves at the two locations. *)
Lemma fit_ok_full self X Y w r w' :
  HyperoptSearchCV.fit self X Y w = (Ok r, w') ->
  (forall l, attr_of w self "estimator" = Some (VRef l) -> l <> self) ->
  exists so l o space n history d w3 fattrs,
    r = VRef self /\ check_X_y X Y = inr (X, Y) /\
    heap w !! self = Some so /\ attrs so !! "estimator" = Some (VRef l) /\
    attrs so !! "space" = Some space /\
    attrs so !! "n_iter" = Some (VAtom (AInt n)) /\
    run_trials (HyperoptSearchCV.__objective self) space (Z.to_nat n) []
      (mkWorld (<[self := set_obj (set_obj so "X_" (VArray2 X)) "Y_" (VArray1 Y)]>
                  (heap w))
               (trace w ++ [call_fmin space (VAtom (AInt n))]))
      = (Ok history, w3) /\
    trials_argmin history = inr d /\
    heap w3 !! l = Some o /\
    (forall o0, heap w !! l = Some o0 -> o = o0) /\
    estimator_fit (apply_params o d) (VArray2 X) (VArray1 Y) = inr fattrs /\
    heap w' !! l = Some (mkObj (cls o) (init_params o) fattrs) /\
    heap w' !! self =
      Some (del_obj (del_obj
        (set_obj (set_obj (set_obj (set_obj so "X_" (VArray2 X)) "Y_" (VArray1 Y))
                    "best_params_" (VDict d)) "best_estimator_" (VRef l))
        "X_") "Y_").
Proof.
  intros Hfit Hne. unfold HyperoptSearchCV.fit in Hfit.
  apply bind_inv_ok in Hfit as ([X' Y'] & w1 & Hc & Hfit).
  apply lift_inv_ok in Hc as [Hc ->].
  destruct (check_X_y_inv X Y) as [[msg Hc']|[Hc' _]]; [congruence|].
  rewrite Hc' in Hc. injection Hc as <- <-.
  apply bind_inv_ok in Hfit as (u1 & w1 & Hs1 & Hfit).
  apply setattr_inv in Hs1 as [(so & Hself & _ & ->)|(_ & _ & e & [=])].
  apply bind_inv_ok in Hfit as (u2 & w2 & Hs2 & Hfit).
  rewrite setattr_at in Hs2. injection Hs2 as <- <-.
  set (so2 := set_obj (set_obj so "X_" (VArray2 X)) "Y_" (VArray1 Y)) in *.
  set (w2 := mkWorld (<[self := so2]> (heap w)) (trace w)) in *.
  assert (heap w2 !! self = Some so2) as Hself2 by apply lookup_insert_eq.
  assert (forall l0, l0 <> self -> heap w2 !! l0 = heap w !! l0) as Hoth2.
  { intros l0 Hl0. cbn. by rewrite lookup_insert_ne. }
  apply bind_inv_ok in Hfit as (space & w2' & Hg & Hfit).
  apply getattr_inv_ok in Hg as [-> (so' & Hso' & Hspace)].
  rewrite Hself2 in Hso'. injection Hso' as <-.
  unfold so2 in Hspace. cbn in Hspace.
  rewrite !lookup_insert_ne in Hspace by done.
  apply bind_inv_ok in Hfit as (n_iter & w2' & Hg & Hfit).
  apply getattr_inv_ok in Hg as [-> (so' & Hso' & Hniter)].
  rewrite Hself2 in Hso'. injection Hso' as <-.
  unfold so2 in Hniter. cbn in Hniter.
  rewrite !lookup_insert_ne in Hniter by done.
  apply bind_inv_ok in Hfit as (best & w3 & Hfmin & Hfit).
  pose proof (fmin_extends _ _ _ _ _ _ (objective_extends self) Hfmin) as Hext.
  apply fmin_ok_search in Hfmin as (n & history & d & -> & Hrun & Hargmin & ->).
  apply bind_inv_ok in Hfit as (u3 & w4 & Hs3 & Hfit).
  apply setattr_inv_ok in Hs3 as (so3 & Hself3 & Hself4 & Hoth4 & _).
  rewrite (Hext self) in Hself3 by (by rewrite Hself2).
  rewrite Hself2 in Hself3. injection Hself3 as <-.
  apply bind_inv_ok in Hfit as (est & w4' & Hg & Hfit).
  apply getattr_inv_ok in Hg as [-> (so4 & Hself4' & Hest)].
  rewrite Hself4 in Hself4'. injection Hself4' as <-.
  apply bind_inv_ok in Hfit as (bp & w4' & Hg & Hfit).
  apply getattr_inv_ok in Hg as [-> (so4 & Hself4' & Hbp)].
  rewrite Hself4 in Hself4'. injection Hself4' as <-.
  unfold so2 in Hest, Hbp. cbn in Hest, Hbp.
  rewrite lookup_insert_eq in Hbp. injection Hbp as <-.
  rewrite !lookup_insert_ne in Hest by done.
  apply bind_inv_ok in Hfit as (cf & w5 & Hsp & Hfit).
  apply set_params_inv_ok in Hsp as (l & o & d' & -> & [= <-] & -> & Hl4 & ->).
  assert (l <> self) as Hl.
  { apply Hne. unfold attr_of. by rewrite Hself. }
  apply bind_inv_ok in Hfit as (X_ & w5' & Hg & Hfit).
  apply getattr_inv_ok in Hg as [-> (so5 & Hself5 & HX)].
  cbn in Hself5. rewrite lookup_insert_ne, Hself4 in Hself5 by done.
  injection Hself5 as <-. unfold so2 in HX. cbn in HX.
  rewrite !lookup_insert_ne, lookup_insert_eq in HX by done. injection HX as <-.
  apply bind_inv_ok in Hfit as (Y_ & w5' & Hg & Hfit).
  apply getattr_inv_ok in Hg as [-> (so5 & Hself5 & HY)].
  cbn in Hself5. rewrite lookup_insert_ne, Hself4 in Hself5 by done.
  injection Hself5 as <-. unfold so2 in HY. cbn in HY.
  rewrite lookup_insert_ne, lookup_insert_eq in HY by done. injection HY as <-.
  apply bind_inv_ok in Hfit as (fitted & w6 & Hfe & Hfit).
  apply fit_estimator_inv_ok in Hfe
    as (l' & o' & fattrs & [= <-] & -> & Hl5 & Hfitted & Hl6 & Hoth6).
  cbn in Hl5. rewrite lookup_insert_eq in Hl5. injection Hl5 as <-.
  rewrite apply_params_cls, apply_params_init_params in Hl6.
  apply bind_inv_ok in Hfit as (u7 & w7 & Hs7 & Hfit).
  apply setattr_inv_ok in Hs7 as (so6 & Hself6 & Hself7 & Hoth7 & _).
  rewrite Hoth6 in Hself6 by done. cbn in Hself6.
  rewrite lookup_insert_ne, Hself4 in Hself6 by done. injection Hself6 as <-.
  apply bind_inv_ok in Hfit as (u8 & w8 & Hd8 & Hfit).
  apply delattr_inv_ok' in Hd8 as (so7 & Hself7' & Hself8 & Hoth8).
  rewrite Hself7 in Hself7'. injection Hself7' as <-.
  apply bind_inv_ok in Hfit as (u9 & w9 & Hd9 & Hfit).
  apply delattr_inv_ok' in Hd9 as (so8 & Hself8' & Hself9 & Hoth9).
  rewrite Hself8 in Hself8'. injection Hself8' as <-.
  apply bind_inv_ok in Hfit as (u10 & w10 & Hlog & Hfit).
  inversion Hlog; subst w10; clear Hlog. inversion Hfit; subst; clear Hfit.
  assert (heap w3 !! l = Some o) as Hl3 by (by rewrite <- Hoth4).
  exists so, l, o, space, n, history, d, w3, fattrs.
  repeat split; try done.
  - intros o0 Hl0.
    assert (heap w2 !! l = Some o0) as Hl2 by (by rewrite Hoth2).
    rewrite (Hext l), Hl2 in Hl3 by (by rewrite ?Hl2). congruence.
  - by rewrite Hoth9, Hoth8, Hoth7.
Qed.

Lemma fit_ok_inv self X Y w r w' :
  HyperoptSearchCV.fit self X Y w = (Ok r, w') ->
  (forall l, attr_of w self "estimator" = Some (VRef l) -> l <> self) ->
  exists so l o d fattrs,
    r = VRef self /\ check_X_y X Y = inr (X, Y) /\
    heap w !! self = Some so /\ attrs so !! "estimator" = Some (VRef l) /\
    (forall o0, heap w !! l = Some o0 -> o = o0) /\
    estimator_fit (apply_params o d) (VArray2 X) (VArray1 Y) = inr fattrs /\
    heap w' !! l = Some (mkObj (cls o) (init_params o) fattrs) /\
    heap w' !! self =
      Some (del_obj (del_obj
        (set_obj (set_obj (set_obj (set_obj so "X_" (VArray2 X)) "Y_" (VArray1 Y))
                    "best_params_" (VDict d)) "best_estimator_" (VRef l))
        "X_") "Y_").
Proof.
  intros Hfit Hne.
  destruct (fit_ok_full _ _ _ _ _ _ Hfit Hne)
    as (so & l & o & space & n & history & d & w3 & fattrs & ? & ? & ? & ? &
        _ & _ & _ & _ & _ & ? & ? & ? & ?).
  by exists so, l, o, d, fattrs.
Qed.

End Fit.

Section Claims.
Context `{Libraries}.

Lemma init_run estimator space n_iter scoring cv n_jobs verbose w :
  HyperoptSearchCV.__init__ estimator space n_iter scoring cv n_jobs verbose w =
    (Ok (fresh (dom (heap w))),
     mkWorld (<[fresh (dom (heap w)) :=
                  new_adapter estimator space n_iter scoring cv n_jobs verbose]>
                (heap w)) (trace w)).
Proof.
  unfold HyperoptSearchCV.__init__.
  erewrite bind_ok; [|reflexivity].
  repeat (erewrite bind_ok; [|apply setattr_at]).
  reflexivity.
Qed.

(** With the estimator, a valid configuration and [X_] in place but no
    [y_], the objective gets as far as reading [self.y_]. *)
Lemma objective_reads_missing_target self so l o kwargs w :
  heap w !! self = Some so ->
  attrs so !! "estimator" = Some (VRef l) ->
  heap w !! l = Some o ->
  Forall (fun p => p.1 ∈ init_params o) kwargs ->
  is_Some (attrs so !! "X_") ->
  attrs so !! "y_" = None ->
  exists w', HyperoptSearchCV.__objective self kwargs w =
               (Raise (AttributeError "y_"), w').
Proof.
  intros Hself Hest Hl Hvalid [X_ HX] Hy.
  unfold HyperoptSearchCV.__objective.
  rewrite (bind_ok _ _ _ _ _ (getattr_some _ _ _ _ _ Hself Hest)).
  rewrite (bind_ok _ _ _ _ _ (clone_ref _ _ _ Hl)).
  set (l' := fresh (dom (heap w))).
  assert (heap w !! l' = None) as Hfresh.
  { apply not_elem_of_dom, is_fresh. }
  assert (self <> l') as Hne by congruence.
  erewrite bind_ok; cycle 1.
  { apply set_params_valid with (o := mkObj (cls o) (init_params o) (get_params o)).
    - cbn. apply lookup_insert_eq.
    - done. }
  cbn [heap trace].
  erewrite bind_ok; cycle 1.
  { eapply getattr_some; [|exact HX].
    cbn. by rewrite !lookup_insert_ne. }
  eexists. apply bind_raise.
  eapply getattr_none; [|exact Hy].
  cbn. by rewrite !lookup_insert_ne.
Qed.

(** C2.  On a newly constructed adapter, with a dataset that passes
    [check_X_y] and a budget [n_iter >= 1], [fit] raises during the
    search: [fmin] has been called (it is the one new event of the
    trace), the first evaluation of the objective raises before
    [cross_val_score] is reached, and the adapter is not fitted
    afterwards.  When the wrapped estimator is an object that accepts the
    first suggested configuration, the exception is the [AttributeError]
    of [self.y_], which [fit] never assigns (it assigns [self.Y_]). *)
Theorem fit_on_new_adapter_raises
    (estimator space scoring cv n_jobs verbose : value) (n : Z)
    (X : matrix) (Y : vector) (w : world) :
  check_X_y X Y = inr (X, Y) ->
  1 <= n ->
  exists self w1 e w2,
    HyperoptSearchCV.__init__ estimator space (VAtom (AInt n))
      scoring cv n_jobs verbose w = (Ok self, w1) /\
    HyperoptSearchCV.fit self X Y w1 = (Raise e, w2) /\
    trace w2 = trace w ++ [call_fmin space (VAtom (AInt n))] /\
    HyperoptSearchCV.fitted w2 self = false /\
    (configurable w estimator (suggest space []) -> e = AttributeError "y_").
Proof.
  intros Hvalid Hn.
  set (self := fresh (dom (heap w))).
  assert (heap w !! self = None) as Hfresh by apply not_elem_of_dom, is_fresh.
  set (a0 := new_adapter estimator space (VAtom (AInt n)) scoring cv n_jobs verbose).
  set (a2 := set_obj (set_obj a0 "X_" (VArray2 X)) "Y_" (VArray1 Y)).
  set (wa := mkWorld (<[self := a2]> (heap w))
                     (trace w ++ [call_fmin space (VAtom (AInt n))])).
  assert (heap wa !! self = Some a2) as Hself by (cbn; apply lookup_insert_eq).
  destruct (Z.to_nat n) as [|k] eqn:Hk; [lia|].
  destruct (HyperoptSearchCV.__objective self (suggest space []) wa)
    as [r w2] eqn:Hobj.
  destruct (objective_inv _ _ _ _ _ Hobj) as [Hext Hraise].
  destruct Hraise as [[e ->] Htrace].
  { unfold attr_of. by rewrite Hself. }
  exists self, (mkWorld (<[self := a0]> (heap w)) (trace w)), e, w2.
  split; [apply init_run|]. split.
  { unfold HyperoptSearchCV.fit.
    erewrite bind_ok; [|by rewrite Hvalid]. cbv beta iota.
    erewrite bind_ok; [|apply setattr_at].
    erewrite bind_ok; [|apply setattr_at].
    erewrite bind_ok; [|by eapply getattr_some; [cbn; apply lookup_insert_eq|]].
    erewrite bind_ok; [|by eapply getattr_some; [cbn; apply lookup_insert_eq|]].
    apply bind_raise. unfold fmin.
    erewrite bind_ok; [|reflexivity].
    apply bind_raise. rewrite Hk. cbn [run_trials].
    apply bind_raise. exact Hobj. }
  split; [by rewrite Htrace|]. split.
  { unfold HyperoptSearchCV.fitted, hasattr.
    rewrite (Hext self), Hself by (by rewrite Hself). done. }
  intros (l & o & -> & Hl & Hkeys).
  destruct (objective_reads_missing_target self a2 l o (suggest space []) wa)
    as [w2' Hobj']; try done.
  - cbn. rewrite lookup_insert_ne; [done|]. congruence.
  - congruence.
Qed.

End Claims.

(** ** The objective, with and without [y_] *)

Section Objective.
Context `{Libraries}.

(** With [y_] bound on the adapter, the objective returns the negated
    mean of the scores [cross_val_score] gives for the configured clone. *)
Lemma objective_negates_mean self so l o kwargs X_ y_ scoring cv n_jobs verbose
    scores w :
  heap w !! self = Some so ->
  attrs so !! "estimator" = Some (VRef l) ->
  heap w !! l = Some o ->
  Forall (fun p => p.1 ∈ init_params o) kwargs ->
  attrs so !! "X_" = Some X_ ->
  attrs so !! "y_" = Some y_ ->
  attrs so !! "scoring" = Some scoring ->
  attrs so !! "cv" = Some cv ->
  attrs so !! "n_jobs" = Some n_jobs ->
  attrs so !! "verbose" = Some verbose ->
  cross_val_score
    (apply_params (mkObj (cls o) (init_params o) (get_params o)) kwargs)
    X_ y_ scoring cv n_jobs verbose = inr scores ->
  (HyperoptSearchCV.__objective self kwargs w).1 = Ok (- np_mean scores)%float.
Proof.
  intros Hself Hest Hl Hvalid HX Hy Hsc Hcv Hnj Hvb Hscores.
  unfold HyperoptSearchCV.__objective.
  rewrite (bind_ok _ _ _ _ _ (getattr_some _ _ _ _ _ Hself Hest)).
  rewrite (bind_ok _ _ _ _ _ (clone_ref _ _ _ Hl)).
  set (l' := fresh (dom (heap w))).
  assert (heap w !! l' = None) as Hfresh.
  { apply not_elem_of_dom, is_fresh. }
  assert (self <> l') as Hne by congruence.
  erewrite bind_ok; cycle 1.
  { apply set_params_valid with (o := mkObj (cls o) (init_params o) (get_params o)).
    - cbn. apply lookup_insert_eq.
    - done. }
  cbn [heap trace].
  set (w2 := mkWorld _ _).
  assert (heap w2 !! self = Some so) as Hself2.
  { unfold w2. cbn. by rewrite !lookup_insert_ne. }
  rewrite (bind_ok _ _ _ _ _ (getattr_some _ _ _ _ _ Hself2 HX)).
  rewrite (bind_ok _ _ _ _ _ (getattr_some _ _ _ _ _ Hself2 Hy)).
  rewrite (bind_ok _ _ _ _ _ (getattr_some _ _ _ _ _ Hself2 Hsc)).
  rewrite (bind_ok _ _ _ _ _ (getattr_some _ _ _ _ _ Hself2 Hcv)).
  rewrite (bind_ok _ _ _ _ _ (getattr_some _ _ _ _ _ Hself2 Hnj)).
  rewrite (bind_ok _ _ _ _ _ (getattr_some _ _ _ _ _ Hself2 Hvb)).
  erewrite bind_ok; cycle 1.
  { apply deref_some. unfold w2. cbn. apply lookup_insert_eq. }
  erewrite bind_ok; [|reflexivity].
  erewrite bind_ok; [|by rewrite Hscores].
  reflexivity.
Qed.

End Objective.

(** ** When the search and [fit] complete *)

Section Completion.
Context `{Libraries}.

(** The estimator accepts every configuration the backend suggests, and
    scoring and fitting do not fail. *)
Variable o : obj.

Hypothesis suggestions_valid :
  forall space history, accepts o (suggest space history).
Hypothesis scoring_total :
  forall est X y scoring cv n_jobs verbose,
    exists scores, cross_val_score est X y scoring cv n_jobs verbose = inr scores.

Lemma objective_completes self so l kwargs w :
  heap w !! self = Some so ->
  heap w !! l = Some o ->
  objective_ready so l ->
  accepts o kwargs ->
  exists loss w',
    HyperoptSearchCV.__objective self kwargs w = (Ok loss, w') /\ extends w w'.
Proof.
  intros Hself Hl (Hest & [X_ HX] & [y_ Hy] & [sc Hsc] & [cv Hcv] & [nj Hnj] & [vb Hvb])
    Hvalid.
  destruct (scoring_total
              (apply_params (mkObj (cls o) (init_params o) (get_params o)) kwargs)
              X_ y_ sc cv nj vb) as [scores Hscores].
  pose proof (objective_negates_mean self so l o kwargs X_ y_ sc cv nj vb scores w
                Hself Hest Hl Hvalid HX Hy Hsc Hcv Hnj Hvb Hscores) as Hrun.
  destruct (HyperoptSearchCV.__objective self kwargs w) as [r w'] eqn:Hobj.
  cbn in Hrun. subst r. exists (- np_mean scores)%float, w'.
  split; [done|]. by eapply objective_extends.
Qed.

Lemma run_trials_completes self so l space n history w :
  heap w !! self = Some so ->
  heap w !! l = Some o ->
  objective_ready so l ->
  Forall (fun t => accepts o t.1) history ->
  exists history' w',
    run_trials (HyperoptSearchCV.__objective self) space n history w
      = (Ok history', w') /\
    extends w w' /\ length history' = (length history + n)%nat /\
    Forall (fun t => accepts o t.1) history'.
Proof.
  intros Hself Hl Hready. revert history w Hself Hl.
  induction n as [|n IH]; intros history w Hself Hl Hhist; cbn [run_trials].
  - exists history, w. split; [done|]. split; [apply extends_refl|].
    split; [lia|done].
  - destruct (objective_completes self so l (suggest space history) w)
      as (loss & w1 & Hobj & Hext1); try done.
    rewrite (bind_ok _ _ _ _ _ Hobj).
    destruct (IH (history ++ [(suggest space history, loss)]) w1)
      as (history' & w' & Hrun & Hext & Hlen & Hhist').
    + rewrite (Hext1 self), Hself by (by rewrite Hself). done.
    + rewrite (Hext1 l), Hl by (by rewrite Hl). done.
    + apply Forall_app. split; [done|].
      apply Forall_cons. split; [apply suggestions_valid|apply Forall_nil_2].
    + exists history', w'. split; [done|]. split; [by eapply extends_trans|].
      split; [|done]. rewrite Hlen, length_app. cbn. lia.
Qed.

Hypothesis argmin_valid :
  forall history, history <> [] ->
    Forall (fun t => accepts o t.1) history ->
    exists best, trials_argmin history = inr best /\ accepts o best.
Hypothesis fitting_total :
  forall o X Y, exists fattrs, estimator_fit o X Y = inr fattrs.

(** With [y_] bound by the caller, [fit] on a valid dataset and a budget
    of at least one trial returns the adapter. *)
Lemma fit_completes self so l n X Y w :
  heap w !! self = Some so ->
  heap w !! l = Some o ->
  l <> self ->
  attrs so !! "estimator" = Some (VRef l) ->
  is_Some (attrs so !! "space") ->
  attrs so !! "n_iter" = Some (VAtom (AInt n)) ->
  is_Some (attrs so !! "y_") ->
  is_Some (attrs so !! "scoring") ->
  is_Some (attrs so !! "cv") ->
  is_Some (attrs so !! "n_jobs") ->
  is_Some (attrs so !! "verbose") ->
  check_X_y X Y = inr (X, Y) ->
  1 <= n ->
  exists w', HyperoptSearchCV.fit self X Y w = (Ok (VRef self), w').
Proof.
  intros Hself Hl Hne Hest [space Hspace] Hn Hy Hsc Hcv Hnj Hvb Hvalid Hn1.
  set (s2 := set_obj (set_obj so "X_" (VArray2 X)) "Y_" (VArray1 Y)).
  unfold HyperoptSearchCV.fit.
  erewrite bind_ok; [|by rewrite Hvalid]. cbv beta iota.
  rewrite (bind_ok _ _ _ _ _ (setattr_some _ _ _ "X_" (VArray2 X) Hself)).
  erewrite bind_ok; [|apply setattr_at].
  fold s2. set (w2 := mkWorld (<[self := s2]> (heap w)) (trace w)).
  assert (heap w2 !! self = Some s2) as Hself2 by (cbn; apply lookup_insert_eq).
  assert (heap w2 !! l = Some o) as Hl2 by (cbn; by rewrite lookup_insert_ne).
  erewrite bind_ok; cycle 1.
  { eapply getattr_some; [exact Hself2|]. cbn. by rewrite !lookup_insert_ne. }
  erewrite bind_ok; cycle 1.
  { eapply getattr_some; [exact Hself2|]. cbn. by rewrite !lookup_insert_ne. }
  set (wl := mkWorld (heap w2) (trace w2 ++ [call_fmin space (VAtom (AInt n))])).
  destruct (run_trials_completes self s2 l space (Z.to_nat n) [] wl)
    as (history & w3 & Hrun & Hext & Hlen & Hhist); try done.
  { unfold objective_ready, s2. cbn.
    repeat split; rewrite ?lookup_insert_ne by done;
      rewrite ?lookup_insert_eq; try done; by eexists. }
  destruct (argmin_valid history) as (best & Hbest & Hbest_valid); [|done|].
  { intros ->. cbn in Hlen. lia. }
  assert (fmin (HyperoptSearchCV.__objective self) space (VAtom (AInt n)) w2
          = (Ok (VDict best), w3)) as Hfmin.
  { unfold fmin. erewrite bind_ok; [|reflexivity]. fold wl.
    rewrite (bind_ok _ _ _ _ _ Hrun).
    erewrite bind_ok; [|by rewrite Hbest]. done. }
  rewrite (bind_ok _ _ _ _ _ Hfmin).
  assert (heap w3 !! self = Some s2) as Hself3.
  { rewrite (Hext self); [exact Hself2|]. exists s2. exact Hself2. }
  assert (heap w3 !! l = Some o) as Hl3.
  { rewrite (Hext l); [exact Hl2|]. exists o. exact Hl2. }
  rewrite (bind_ok _ _ _ _ _ (setattr_some _ _ _ "best_params_" (VDict best) Hself3)).
  set (s3 := set_obj s2 "best_params_" (VDict best)).
  set (w4 := mkWorld _ _).
  assert (heap w4 !! self = Some s3) as Hself4 by (cbn; apply lookup_insert_eq).
  assert (heap w4 !! l = Some o) as Hl4 by (cbn; by rewrite lookup_insert_ne).
  erewrite bind_ok; cycle 1.
  { eapply getattr_some; [exact Hself4|]. cbn. by rewrite !lookup_insert_ne. }
  erewrite bind_ok; cycle 1.
  { eapply getattr_some; [exact Hself4|]. cbn. apply lookup_insert_eq. }
  rewrite (bind_ok _ _ _ _ _ (set_params_valid _ _ _ _ Hl4 Hbest_valid)).
  set (w5 := mkWorld _ _).
  assert (heap w5 !! self = Some s3) as Hself5.
  { unfold w5. cbn [heap]. by rewrite lookup_insert_ne. }
  erewrite bind_ok; cycle 1.
  { eapply getattr_some; [exact Hself5|]. cbn.
    rewrite !lookup_insert_ne by done. apply lookup_insert_eq. }
  erewrite bind_ok; cycle 1.
  { eapply getattr_some; [exact Hself5|]. cbn.
    rewrite !lookup_insert_ne by done. apply lookup_insert_eq. }
  destruct (fitting_total (apply_params o best) (VArray2 X) (VArray1 Y))
    as [fattrs Hfitted].
  erewrite bind_ok; cycle 1.
  { unfold fit_estimator.
    erewrite bind_ok; [|apply deref_some; unfold w5; cbn; apply lookup_insert_eq].
    erewrite bind_ok; [|reflexivity].
    erewrite bind_ok; [|by rewrite Hfitted].
    erewrite bind_ok; [|reflexivity]. reflexivity. }
  set (w6 := mkWorld _ _).
  assert (heap w6 !! self = Some s3) as Hself6.
  { unfold w6, w5. cbn [heap]. by rewrite !lookup_insert_ne. }
  rewrite (bind_ok _ _ _ _ _ (setattr_some _ _ _ "best_estimator_" (VRef l) Hself6)).
  erewrite bind_ok; cycle 1.
  { unfold delattr.
    erewrite bind_ok; [|apply deref_some; cbn; apply lookup_insert_eq].
    cbn. rewrite !lookup_insert_ne by done. rewrite lookup_insert_eq.
    reflexivity. }
  erewrite bind_ok; cycle 1.
  { unfold delattr.
    erewrite bind_ok; [|apply deref_some; cbn; apply lookup_insert_eq].
    cbn. rewrite lookup_delete_ne by done.
    rewrite !lookup_insert_ne by done. rewrite lookup_insert_eq.
    reflexivity. }
  erewrite bind_ok; [|reflexivity].
  eexists. reflexivity.
Qed.

End Completion.

(** ** The loop of [main] *)

Section Orchestrator.
Context `{Libraries}.

Lemma plot_feature_importance_inv_ok clf path w u w' :
  plot_feature_importance clf path w = (Ok u, w') ->
  heap w' = heap w /\
  exists o chart,
    heap w !! clf = Some o /\
    chart_of o path chart /\
    trace w' = trace w ++ chart.
Proof.
  unfold plot_feature_importance. intros Hp.
  apply bind_inv_ok in Hp as (u1 & w1 & Hl & Hp). apply log_inv in Hl as [_ ->].
  apply bind_inv_ok in Hp as (u2 & w2 & Hl & Hp). apply log_inv in Hl as [_ ->].
  apply bind_inv_ok in Hp as (u3 & w3 & Hl & Hp). apply log_inv in Hl as [_ ->].
  apply bind_inv_ok in Hp as (fi & w4 & Hg & Hp).
  apply getattr_inv_ok in Hg as [-> (o & Ho & Hfi)]. cbn in Ho.
  destruct fi as [a|l|m|importances|d]; try discriminate.
  - apply bind_inv_ok in Hp as (u5 & w5 & Hl & Hp).
    apply log_inv in Hl as [_ ->].
    apply lift_inv_ok in Hp as [Hok ->]. destruct u. cbn.
    split; [done|]. exists o. eexists. split; [done|]. split.
    + right. exists (VRef l). split; [done|]. split; [done|]. split; [done|reflexivity].
    + by rewrite <- !app_assoc.
  - apply bind_inv_ok in Hp as (u5 & w5 & Hl & Hp).
    apply log_inv in Hl as [_ ->].
    apply lift_inv_ok in Hp as [Hok ->]. destruct u. cbn.
    split; [done|]. exists o. eexists. split; [done|]. split.
    + right. exists (VArray2 m). split; [done|]. split; [done|]. split; [done|reflexivity].
    + by rewrite <- !app_assoc.
  - apply bind_inv_ok in Hp as (u5 & w5 & Hl & Hp). apply log_inv in Hl as [_ ->].
    apply bind_inv_ok in Hp as (u6 & w6 & Hl & Hp). apply log_inv in Hl as [_ ->].
    apply bind_inv_ok in Hp as (u7 & w7 & Hl & Hp). apply log_inv in Hl as [_ ->].
    apply bind_inv_ok in Hp as (u8 & w8 & Hl & Hp). apply log_inv in Hl as [_ ->].
    apply bind_inv_ok in Hp as (u9 & w9 & Hl & Hp). apply log_inv in Hl as [_ ->].
    apply bind_inv_ok in Hp as (u10 & w10 & Hl & Hp). apply log_inv in Hl as [_ ->].
    apply lift_inv_ok in Hp as [Hok ->]. destruct u. cbn.
    split; [done|]. exists o, (drawing importances path). split; [done|]. split.
    + left. by exists importances.
    + unfold drawing. by rewrite <- !app_assoc.
Qed.

Lemma plot_feature_importance_completes clf o chart path w :
  heap w !! clf = Some o ->
  chart_of o path chart ->
  plot_feature_importance clf path w =
    (Ok tt, mkWorld (heap w) (trace w ++ chart)).
Proof.
  intros Hl [(imps & Hfi & Hsave & ->)|(v & Hfi & Hv & Hok & ->)];
    unfold plot_feature_importance.
  - do 3 (erewrite bind_ok; [|reflexivity]).
    erewrite bind_ok; [|by eapply getattr_some]. cbv beta iota.
    do 6 (erewrite bind_ok; [|reflexivity]).
    rewrite Hsave. unfold drawing. cbn. by rewrite <- !app_assoc.
  - do 3 (erewrite bind_ok; [|reflexivity]).
    erewrite bind_ok; [|by eapply getattr_some].
    destruct v as [a|l|m|x|d]; try done.
    + erewrite bind_ok; [|reflexivity]. rewrite Hok. cbn.
      by rewrite <- !app_assoc.
    + erewrite bind_ok; [|reflexivity]. rewrite Hok. cbn.
      by rewrite <- !app_assoc.
Qed.

Lemma dump_inv_ok l filename w u w' :
  dump l filename w = (Ok u, w') ->
  exists o, heap w !! l = Some o /\
            dump_outcome o filename = inr tt /\
            w' = mkWorld (heap w) (trace w ++ [call_dump o filename]).
Proof.
  unfold dump. intros Hd.
  apply bind_inv_ok in Hd as (o & w1 & Ho & Hd).
  apply deref_inv in Ho as [-> [(o' & Ho & [= <-])|[_ [=]]]].
  apply bind_inv_ok in Hd as (u1 & w1 & Hl & Hd). apply log_inv in Hl as [_ ->].
  apply lift_inv_ok in Hd as [Hok ->]. destruct u. eauto.
Qed.

Lemma dump_completes l o filename w :
  heap w !! l = Some o ->
  dump_outcome o filename = inr tt ->
  dump l filename w = (Ok tt, mkWorld (heap w) (trace w ++ [call_dump o filename])).
Proof.
  intros Hl Hok. unfold dump.
  rewrite (bind_ok _ _ _ _ _ (deref_some _ _ _ Hl)).
  erewrite bind_ok; [|reflexivity]. by rewrite Hok.
Qed.

Lemma search_family_inv_ok X_train Y_train clf_name w u w' :
  search_family X_train Y_train clf_name w = (Ok u, w') ->
  exists evs, trace w' = trace w ++ evs /\
              family_step X_train Y_train clf_name evs.
Proof.
  unfold search_family. intros Hs.
  apply bind_inv_ok in Hs as (base & w1 & Hb & Hs).
  apply lift_inv_ok in Hb as [Hb ->].
  apply bind_inv_ok in Hs as (dists & w1 & Hd & Hs).
  apply lift_inv_ok in Hd as [Hd ->].
  apply bind_inv_ok in Hs as (u1 & w1 & Hl & Hs). apply log_inv in Hl as [_ ->].
  apply bind_inv_ok in Hs as (best & w2 & Hr & Hs).
  apply lift_inv_ok in Hr as [Hr ->].
  apply bind_inv_ok in Hs as (l & w3 & Hn & Hs).
  apply new_object_inv in Hn as (l' & [= <-] & Hfresh & ->).
  apply bind_inv_ok in Hs as (u2 & w4 & Hp & Hs).
  apply dump_inv_ok in Hs as (o & Ho & Hdump & ->). cbn [trace].
  destruct (String.eqb clf_name "rf") eqn:Hrf.
  - apply String.eqb_eq in Hrf as ->.
    apply plot_feature_importance_inv_ok in Hp as (Hh & o' & chart & Ho' & Hchart & Ht).
    rewrite Hh in Ho. cbn in Ho, Ho', Ht. rewrite lookup_insert_eq in Ho, Ho'.
    injection Ho as <-. injection Ho' as <-.
    exists (call_RandomizedSearchCV_fit "rf" :: chart
            ++ [call_dump best (estimators_dir ++ "rf" ++ ".pkl")%string]).
    split.
    { rewrite Ht. by rewrite <- !app_assoc. }
    exists base, dists, best, chart. by repeat split.
  - inversion Hp; subst w4; clear Hp.
    cbn in Ho. rewrite lookup_insert_eq in Ho. injection Ho as <-.
    exists (call_RandomizedSearchCV_fit clf_name :: []
            ++ [call_dump best (estimators_dir ++ clf_name ++ ".pkl")%string]).
    split.
    { cbn. by rewrite <- !app_assoc. }
    exists base, dists, best, []. repeat split; try done.
    intros ->. done.
Qed.

Lemma for_each_inv_ok X_train Y_train names w u w' :
  for_each names (search_family X_train Y_train) w = (Ok u, w') ->
  exists steps, trace w' = trace w ++ concat steps /\
                Forall2 (family_step X_train Y_train) names steps.
Proof.
  revert w. induction names as [|name names IH]; intros w; cbn [for_each].
  - intros Hr. inversion Hr; subst. exists []. cbn.
    by rewrite app_nil_r.
  - intros Hr.
    apply bind_inv_ok in Hr as (u1 & w1 & Hs & Hr).
    apply search_family_inv_ok in Hs as (evs & Ht1 & Hstep).
    apply IH in Hr as (steps & Ht & Hsteps).
    exists (evs :: steps). split; [|by constructor].
    cbn. by rewrite Ht, Ht1, <- app_assoc.
Qed.

(** C9.  When the loop of [main] completes, the trace has grown by one
    run of events per family name, in the order of the list.  The run of
    a family is: the randomized search of that family; then, if and only
    if the name is [rf], the chart of the best estimator the search
    returned, [chart_of] (for its one-dimensional [feature_importances_]:
    the bars of those very importances and [savefig] to the pictures
    path, which did not raise; for importances of another kind that have
    a [size]: what the libraries make of them, which did not raise);
    then [dump] of that best estimator to
    [./resources/estimators/<name>.pkl], which did not raise.  For the
    other names nothing stands between the search and the dump. *)
Theorem main_persists_each_family
    (X_train : matrix) (Y_train : vector) (names : list string) (w w' : world) :
  main_with X_train Y_train names w = (Ok tt, w') ->
  exists steps : list (list event),
    trace w' = trace w ++ concat steps /\
    Forall2 (fun name evs =>
      exists base dists best chart,
        subscript estimator name = inr base /\
        subscript param_distributions name = inr dists /\
        RandomizedSearchCV_fit base dists "r2"
          (mkShuffleSplit 5 test_size_main 1) 1 81 1 (-1) X_train Y_train
          = inr best /\
        dump_outcome best ("./resources/estimators/" ++ name ++ ".pkl")%string
          = inr tt /\
        evs = call_RandomizedSearchCV_fit name :: chart ++
              [call_dump best ("./resources/estimators/" ++ name ++ ".pkl")%string] /\
        (name = "rf" ->
         chart_of best "./documents/pictures/feature_importances.png" chart) /\
        (name <> "rf" -> chart = []))
      names steps.
Proof.
  unfold main_with. intros Hm.
  apply bind_inv_ok in Hm as (sh & w1 & Hsh & Hm).
  apply lift_inv_ok in Hsh as [_ ->].
  by apply for_each_inv_ok in Hm.
Qed.

End Orchestrator.

Section OrchestratorCompletes.
Context `{Libraries}.

Lemma search_family_completes X_train Y_train clf_name w :
  searchable X_train Y_train clf_name ->
  exists w', search_family X_train Y_train clf_name w = (Ok tt, w').
Proof.
  intros (base & dists & best & Hb & Hd & Hbest & Hrf & Hdump).
  unfold search_family, n_splits_main, random_state.
  erewrite bind_ok; [|by rewrite Hb].
  erewrite bind_ok; [|by rewrite Hd].
  erewrite bind_ok; [|reflexivity].
  erewrite bind_ok; [|by rewrite Hbest].
  erewrite bind_ok; [|reflexivity].
  set (l := fresh _). set (w1 := mkWorld _ _).
  assert (heap w1 !! l = Some best) as Hl by (cbn; apply lookup_insert_eq).
  destruct (String.eqb clf_name "rf") eqn:Heq.
  - apply String.eqb_eq in Heq. destruct (Hrf Heq) as [chart Hchart].
    rewrite (bind_ok _ _ _ _ _
               (plot_feature_importance_completes _ _ _ importance_path _ Hl Hchart)).
    erewrite dump_completes; [by eexists|exact Hl|exact Hdump].
  - erewrite bind_ok; [|reflexivity].
    erewrite dump_completes; [by eexists|exact Hl|exact Hdump].
Qed.

(** When the training matrix is two-dimensional and every family of the
    list can be searched, charted and dumped, the loop of [main]
    completes. *)
Lemma main_with_completes X_train Y_train names w :
  (exists sh, shape X_train = inr sh) ->
  Forall (searchable X_train Y_train) names ->
  exists w', main_with X_train Y_train names w = (Ok tt, w').
Proof.
  intros [sh Hsh] Hnames. unfold main_with.
  erewrite bind_ok; [|by rewrite Hsh]. clear Hsh.
  revert w. induction Hnames as [|name names Hname _ IH]; intros w; cbn [for_each].
  - by exists w.
  - destruct (search_family_completes X_train Y_train name w Hname) as [w1 Hs].
    rewrite (bind_ok _ _ _ _ _ Hs). apply IH.
Qed.

End OrchestratorCompletes.

(** * Further properties of the code *)

(** ** The objective, when it returns *)

Lemma clone_inv_ok v w c w' :
  clone v w = (Ok c, w') ->
  exists l o l',
    v = VRef l /\ heap w !! l = Some o /\ c = VRef l' /\ heap w !! l' = None /\
    w' = mkWorld (<[l' := mkObj (cls o) (init_params o) (get_params o)]> (heap w))
                 (trace w).
Proof.
  unfold clone. destruct v; try discriminate. intros Hr.
  apply bind_inv_ok in Hr as (o & w1 & Hd & Hr).
  apply deref_inv in Hd as [-> [(o' & Hl & [= <-])|[_ [=]]]].
  apply bind_inv_ok in Hr as (l' & w1 & Hn & Hr).
  apply new_object_inv in Hn as (l'' & [= <-] & Hfresh & ->).
  inversion Hr; subst. exists l, o, l'. eauto.
Qed.

Section ObjectiveReturns.
Context `{Libraries}.

Lemma objective_inv_ok self kwargs w loss w' :
  HyperoptSearchCV.__objective self kwargs w = (Ok loss, w') ->
  exists l o c X_ y_ scoring cv n_jobs verbose scores,
    attr_of w self "estimator" = Some (VRef l) /\
    heap w !! l = Some o /\
    heap w !! c = None /\
    heap w' !! c =
      Some (apply_params (mkObj (cls o) (init_params o) (get_params o)) kwargs) /\
    (forall l0, l0 <> c -> heap w' !! l0 = heap w !! l0) /\
    attr_of w self "X_" = Some X_ /\
    attr_of w self "y_" = Some y_ /\
    attr_of w self "scoring" = Some scoring /\
    attr_of w self "cv" = Some cv /\
    attr_of w self "n_jobs" = Some n_jobs /\
    attr_of w self "verbose" = Some verbose /\
    cross_val_score
      (apply_params (mkObj (cls o) (init_params o) (get_params o)) kwargs)
      X_ y_ scoring cv n_jobs verbose = inr scores /\
    loss = (- np_mean scores)%float /\
    trace w' = trace w ++ [call_cross_val_score c].
Proof.
  unfold HyperoptSearchCV.__objective. intros Ho.
  apply bind_inv_ok in Ho as (est & w0 & Hg & Ho).
  apply getattr_inv_ok in Hg as [-> (so & Hself & Hest)].
  apply bind_inv_ok in Ho as (cl & w1 & Hc & Ho).
  apply clone_inv_ok in Hc as (l & o & c & -> & Hl & -> & Hfresh & ->).
  apply bind_inv_ok in Ho as (cf & w2 & Hs & Ho).
  apply set_params_inv_ok in Hs as (c' & o' & d & [= <-] & [= <-] & -> & Hc & ->).
  cbn in Hc. rewrite lookup_insert_eq in Hc. injection Hc as <-.
  assert (self <> c) as Hne by congruence.
  set (co := apply_params (mkObj (cls o) (init_params o) (get_params o)) kwargs) in *.
  set (w2 := mkWorld _ _) in *.
  assert (heap w2 !! self = Some so) as Hself2.
  { unfold w2. cbn. by rewrite !lookup_insert_ne. }
  assert (forall name v w3, getattr self name w2 = (Ok v, w3) ->
            w3 = w2 /\ attr_of w self name = Some v) as Hget.
  { intros name v w3 Hg. apply getattr_inv_ok in Hg as [-> (so' & Hso' & Hv)].
    split; [done|]. unfold attr_of. rewrite Hself. cbn. congruence. }
  apply bind_inv_ok in Ho as (X_ & w3 & Hg & Ho). apply Hget in Hg as [-> HX].
  apply bind_inv_ok in Ho as (y_ & w3 & Hg & Ho). apply Hget in Hg as [-> Hy].
  apply bind_inv_ok in Ho as (sc & w3 & Hg & Ho). apply Hget in Hg as [-> Hsc].
  apply bind_inv_ok in Ho as (cv & w3 & Hg & Ho). apply Hget in Hg as [-> Hcv].
  apply bind_inv_ok in Ho as (nj & w3 & Hg & Ho). apply Hget in Hg as [-> Hnj].
  apply bind_inv_ok in Ho as (vb & w3 & Hg & Ho). apply Hget in Hg as [-> Hvb].
  apply bind_inv_ok in Ho as (o2 & w3 & Hd & Ho).
  apply deref_inv in Hd as [-> [(o2' & Hc2 & [= <-])|[_ [=]]]].
  unfold w2 in Hc2. cbn in Hc2. rewrite lookup_insert_eq in Hc2.
  injection Hc2 as <-.
  apply bind_inv_ok in Ho as (u & w3 & Hlog & Ho). apply log_inv in Hlog as [_ ->].
  apply bind_inv_ok in Ho as (scores & w3 & Hs & Ho).
  apply lift_inv_ok in Hs as [Hs ->].
  inversion Ho; subst; clear Ho.
  exists l, o, c, X_, y_, sc, cv, nj, vb, scores. cbn.
  rewrite lookup_insert_eq.
  repeat split; try done.
  - unfold attr_of. rewrite Hself. done.
  - intros l0 Hl0. by rewrite !lookup_insert_ne.
Qed.

(** X1.  When the objective returns, the value is minus the mean of the
    scores that [cross_val_score] gave, called once, for a new object: the
    clone of the stored estimator with [kwargs] set on it, scored on the
    adapter's [X_] and on its attribute [y_].  No other object has
    changed. *)
Theorem objective_returns_negated_mean
    (self : loc) (kwargs : config) (w : world) (loss : float) (w' : world) :
  HyperoptSearchCV.__objective self kwargs w = (Ok loss, w') ->
  exists l o c X_ y_ scoring cv n_jobs verbose scores,
    attr_of w self "estimator" = Some (VRef l) /\
    heap w !! l = Some o /\
    heap w !! c = None /\
    heap w' !! c =
      Some (apply_params (mkObj (cls o) (init_params o) (get_params o)) kwargs) /\
    (forall l0, l0 <> c -> heap w' !! l0 = heap w !! l0) /\
    attr_of w self "X_" = Some X_ /\
    attr_of w self "y_" = Some y_ /\
    attr_of w self "scoring" = Some scoring /\
    attr_of w self "cv" = Some cv /\
    attr_of w self "n_jobs" = Some n_jobs /\
    attr_of w self "verbose" = Some verbose /\
    cross_val_score
      (apply_params (mkObj (cls o) (init_params o) (get_params o)) kwargs)
      X_ y_ scoring cv n_jobs verbose = inr scores /\
    loss = (- np_mean scores)%float /\
    trace w' = trace w ++ [call_cross_val_score c].
Proof. apply objective_inv_ok. Qed.

(** X2.  The search of [fit], [fmin] driving the adapter's objective,
    changes no object that existed when it started, whether it returns or
    raises: every trial works on a clone made for it. *)
Theorem search_changes_no_existing_object
    (self : loc) (space max_evals : value) (w : world)
    (r : result value) (w' : world) (l : loc) (o : obj) :
  fmin (HyperoptSearchCV.__objective self) space max_evals w = (r, w') ->
  heap w !! l = Some o ->
  heap w' !! l = Some o.
Proof.
  intros Hfmin Hl.
  pose proof (fmin_extends _ _ _ _ _ _ (objective_extends self) Hfmin) as Hext.
  rewrite (Hext l); [done|]. by rewrite Hl.
Qed.

End ObjectiveReturns.

(** ** What a [fit] that completes leaves behind *)

Section FitResult.
Context `{Libraries}.

(** The estimator the objective clones is still there, unchanged, when
    the search returns. *)
Lemma run_trials_ok_estimator self space n history0 history ws w3 l o :
  run_trials (HyperoptSearchCV.__objective self) space n history0 ws
    = (Ok history, w3) ->
  attr_of ws self "estimator" = Some (VRef l) ->
  heap w3 !! l = Some o ->
  heap ws !! l = Some o.
Proof.
  destruct n as [|n]; cbn; intros Hrun Hest Hl3.
  - inversion Hrun; by subst.
  - apply bind_inv_ok in Hrun as (loss & w1 & Hobj & Hrun).
    pose proof (objective_extends _ _ _ _ _ Hobj) as Hext1.
    pose proof (run_trials_extends _ _ _ _ _ _ _ (objective_extends self) Hrun)
      as Hext2.
    apply objective_inv_ok in Hobj as (l' & o' & c & X_ & y_ & sc & cv & nj & vb &
                                       scores & Hest' & Hl' & _).
    assert (l' = l) as -> by congruence.
    assert (heap w1 !! l = Some o') as Hl1.
    { rewrite (Hext1 l); [done|]. by rewrite Hl'. }
    rewrite (Hext2 l), Hl1 in Hl3 by (by rewrite Hl1). congruence.
Qed.

(** C7.  When [fit] completes, it returns the adapter itself, and [X_]
    and [Y_] are no longer attributes of it.  The adapter has
    [best_params_] and [best_estimator_], and they hold this:
    [best_params_] is the configuration [d] that [trials_argmin] picks
    from the history of the [n_iter] evaluations of the objective over
    [space], run on the adapter with [X_] and [Y_] bound;
    [best_estimator_] is a reference to the wrapped estimator, which now
    is the object [estimator_fit] makes of it with [d] set on it, fitted
    on [X] and [Y].  Every other attribute of the adapter is as it
    was. *)
Theorem fit_returns_fitted_self (self : loc) (X : matrix) (Y : vector)
    (w : world) (r : value) (w' : world) :
  (forall l, attr_of w self "estimator" = Some (VRef l) -> l <> self) ->
  HyperoptSearchCV.fit self X Y w = (Ok r, w') ->
  r = VRef self /\
  hasattr w' self "best_params_" = true /\
  hasattr w' self "best_estimator_" = true /\
  hasattr w' self "X_" = false /\
  hasattr w' self "Y_" = false /\
  exists so l o space n history w3 d fattrs,
    heap w !! self = Some so /\
    attrs so !! "estimator" = Some (VRef l) /\
    heap w !! l = Some o /\
    attrs so !! "space" = Some space /\
    attrs so !! "n_iter" = Some (VAtom (AInt n)) /\
    run_trials (HyperoptSearchCV.__objective self) space (Z.to_nat n) []
      (mkWorld (<[self := set_obj (set_obj so "X_" (VArray2 X)) "Y_" (VArray1 Y)]>
                  (heap w))
               (trace w ++ [call_fmin space (VAtom (AInt n))]))
      = (Ok history, w3) /\
    trials_argmin history = inr d /\
    estimator_fit (apply_params o d) (VArray2 X) (VArray1 Y) = inr fattrs /\
    attr_of w' self "best_params_" = Some (VDict d) /\
    attr_of w' self "best_estimator_" = Some (VRef l) /\
    heap w' !! l = Some (mkObj (cls o) (init_params o) fattrs) /\
    (forall name,
       name <> "X_" -> name <> "Y_" ->
       name <> "best_params_" -> name <> "best_estimator_" ->
       attr_of w' self name = attr_of w self name).
Proof.
  intros Hne Hfit.
  destruct (fit_ok_full _ _ _ _ _ _ Hfit Hne)
    as (so & l & o & space & n & history & d & w3 & fattrs & -> & _ & Hso & Hest &
        Hspace & Hniter & Hrun & Hargmin & Hl3 & _ & Hfitted & Hl' & Hself).
  assert (l <> self) as Hl.
  { apply Hne. unfold attr_of. by rewrite Hso. }
  assert (heap w !! l = Some o) as Hlw.
  { eapply run_trials_ok_estimator in Hl3; [|exact Hrun|].
    - cbn in Hl3. by rewrite lookup_insert_ne in Hl3.
    - unfold attr_of. cbn. rewrite lookup_insert_eq. cbn.
      by rewrite !lookup_insert_ne. }
  split; [done|]. unfold hasattr, attr_of. rewrite Hself, Hso. cbn.
  split; [apply bool_decide_eq_true; by simplify_map_eq|].
  split; [apply bool_decide_eq_true; by simplify_map_eq|].
  split; [apply bool_decide_eq_false; simplify_map_eq; by intros [? ?]|].
  split; [apply bool_decide_eq_false; simplify_map_eq; by intros [? ?]|].
  exists so, l, o, space, n, history, w3, d, fattrs.
  repeat split; try done.
  - by simplify_map_eq.
  - by simplify_map_eq.
  - intros name HX HY Hbp Hbe. by simplify_map_eq.
Qed.

(** C6, as the code has it.  When [fit] completes, the configuration
    [d] that the search returned ([trials_argmin] of the history of the
    [n_iter] evaluations of the objective over [space]) has been stored
    on the adapter's own estimator object (no copy is made: [set_params]
    and [fit] work on the receiver), that object has been fitted on the
    whole of [X] and [Y], and [best_estimator_] is a second reference to
    it. *)
Theorem fit_refits_the_stored_estimator (self l : loc) (o0 : obj)
    (X : matrix) (Y : vector) (w : world) (r : value) (w' : world) :
  attr_of w self "estimator" = Some (VRef l) ->
  l <> self ->
  heap w !! l = Some o0 ->
  HyperoptSearchCV.fit self X Y w = (Ok r, w') ->
  exists so space n history w3 d fattrs,
    heap w !! self = Some so /\
    attrs so !! "space" = Some space /\
    attrs so !! "n_iter" = Some (VAtom (AInt n)) /\
    run_trials (HyperoptSearchCV.__objective self) space (Z.to_nat n) []
      (mkWorld (<[self := set_obj (set_obj so "X_" (VArray2 X)) "Y_" (VArray1 Y)]>
                  (heap w))
               (trace w ++ [call_fmin space (VAtom (AInt n))]))
      = (Ok history, w3) /\
    trials_argmin history = inr d /\
    attr_of w' self "best_params_" = Some (VDict d) /\
    attr_of w' self "estimator" = Some (VRef l) /\
    attr_of w' self "best_estimator_" = Some (VRef l) /\
    estimator_fit (apply_params o0 d) (VArray2 X) (VArray1 Y) = inr fattrs /\
    heap w' !! l = Some (mkObj (cls o0) (init_params o0) fattrs).
Proof.
  intros Hest Hne Hl Hfit.
  destruct (fit_ok_full _ _ _ _ _ _ Hfit)
    as (so & l' & o & space & n & history & d & w3 & fattrs & _ & _ & Hso & Hest' &
        Hspace & Hniter & Hrun & Hargmin & _ & Ho & Hfitted & Hl' & Hself).
  { intros l0 Hl0. congruence. }
  unfold attr_of in Hest. rewrite Hso in Hest. cbn in Hest.
  assert (l' = l) as -> by congruence.
  rewrite (Ho o0 Hl) in *.
  exists so, space, n, history, w3, d, fattrs. unfold attr_of. rewrite Hself. cbn.
  repeat split; try done; by simplify_map_eq.
Qed.

End FitResult.

(** ** A [fit] that raises *)



Section FitRaises.
Context `{Libraries}.



End FitRaises.

(** ** The calls of a [fit] that completes *)

Section FitCalls.
Context `{Libraries}.

Lemma run_trials_ok_trace self space n history w history' w' :
  run_trials (HyperoptSearchCV.__objective self) space n history w
    = (Ok history', w') ->
  exists clones,
    trace w' = trace w ++ map call_cross_val_score clones /\
    length clones = n /\
    NoDup clones /\
    Forall (fun c => heap w !! c = None) clones /\
    extends w w'.
Proof.
  revert history w. induction n as [|n IH]; intros history w; cbn [run_trials].
  - intros Hr. inversion Hr; subst. exists []. cbn.
    rewrite app_nil_r.
    repeat split; first [done | apply NoDup_nil_2 | apply extends_refl].
  - intros Hr.
    apply bind_inv_ok in Hr as (loss & w1 & Hobj & Hr).
    pose proof (objective_extends _ _ _ _ _ Hobj) as Hext1.
    apply objective_inv_ok in Hobj
      as (l & o & c & ? & ? & ? & ? & ? & ? & ? & _ & _ & Hfresh & Hc & _ & _ & _
          & _ & _ & _ & _ & _ & _ & Ht1).
    apply IH in Hr as (clones & Ht & Hlen & Hnodup & Hnew & Hext).
    assert (forall c', heap w1 !! c' = None -> heap w !! c' = None) as Hback.
    { intros c' Hc'. destruct (heap w !! c') as [oc|] eqn:Hx; [|done].
      rewrite (Hext1 c') in Hc' by (by rewrite Hx). congruence. }
    exists (c :: clones). cbn. repeat split.
    + by rewrite Ht, Ht1, <- app_assoc.
    + by rewrite Hlen.
    + constructor; [|done]. intros Hin.
      rewrite Forall_forall in Hnew. apply Hnew in Hin. congruence.
    + constructor; [done|]. eapply Forall_impl; [exact Hnew|]. auto.
    + by eapply extends_trans.
Qed.

Lemma fmin_ok_trace self space max_evals w best w' :
  fmin (HyperoptSearchCV.__objective self) space max_evals w = (Ok best, w') ->
  exists n clones,
    max_evals = VAtom (AInt n) /\
    trace w' = trace w ++ call_fmin space max_evals
                 :: map call_cross_val_score clones /\
    length clones = Z.to_nat n /\
    NoDup clones /\
    Forall (fun c => heap w !! c = None) clones.
Proof.
  unfold fmin. intros Hr.
  apply bind_inv_ok in Hr as (u & w1 & Hlog & Hr). apply log_inv in Hlog as [_ ->].
  destruct max_evals as [[| |n| |]| | | |]; try discriminate.
  apply bind_inv_ok in Hr as (history & w2 & Hrun & Hr).
  apply run_trials_ok_trace in Hrun as (clones & Ht & Hlen & Hnodup & Hnew & _).
  apply bind_inv_ok in Hr as (b & w3 & Ha & Hr).
  apply lift_inv_ok in Ha as [_ ->]. inversion Hr; subst.
  exists n, clones. cbn in Ht. rewrite Ht, <- app_assoc. done.
Qed.

Lemma fit_estimator_ok_trace v X Y w c w' :
  fit_estimator v X Y w = (Ok c, w') ->
  exists l, v = VRef l /\ trace w' = trace w ++ [call_estimator_fit l].
Proof.
  unfold fit_estimator. destruct v; try discriminate. intros Hr.
  apply bind_inv_ok in Hr as (o & w1 & Hd & Hr).
  apply deref_inv in Hd as [-> _].
  apply bind_inv_ok in Hr as (u & w1 & Hlog & Hr). apply log_inv in Hlog as [_ ->].
  apply bind_inv_ok in Hr as (fattrs & w1 & Hf & Hr).
  apply lift_inv_ok in Hf as [_ ->].
  apply bind_inv_ok in Hr as (u' & w1 & Hs & Hr).
  inversion Hs; subst w1. inversion Hr; subst. eauto.
Qed.

(** X4.  The calls a completing [fit] makes, in order: [fmin] with the
    adapter's [space] and [n_iter]; one [cross_val_score] per trial,
    [n_iter] of them, each on an object of its own that did not exist
    before; one [fit] of the stored estimator itself; [gc.collect]. *)
Theorem completed_fit_call_sequence
    (self l : loc) (o0 : obj) (X : matrix) (Y : vector)
    (w : world) (r : value) (w' : world) :
  attr_of w self "estimator" = Some (VRef l) ->
  l <> self ->
  heap w !! l = Some o0 ->
  HyperoptSearchCV.fit self X Y w = (Ok r, w') ->
  exists space n clones,
    attr_of w self "space" = Some space /\
    attr_of w self "n_iter" = Some (VAtom (AInt n)) /\
    trace w' =
      trace w ++ call_fmin space (VAtom (AInt n))
        :: map call_cross_val_score clones
        ++ [call_estimator_fit l; call_gc_collect] /\
    length clones = Z.to_nat n /\
    NoDup clones /\
    Forall (fun c => heap w !! c = None) clones /\
    l ∉ clones.
Proof.
  intros Hest Hne Hl Hfit. unfold HyperoptSearchCV.fit in Hfit.
  apply bind_inv_ok in Hfit as ([X' Y'] & w0 & Hc & Hfit).
  apply lift_inv_ok in Hc as [_ ->].
  apply bind_inv_ok in Hfit as (u1 & w1 & Hs1 & Hfit).
  apply setattr_inv_ok in Hs1 as (so & Hself & Hself1 & Hoth1 & Ht1).
  apply bind_inv_ok in Hfit as (u2 & w2 & Hs2 & Hfit).
  apply setattr_inv_ok in Hs2 as (so1 & Hself1' & Hself2 & Hoth2 & Ht2).
  rewrite Hself1 in Hself1'. injection Hself1' as <-.
  unfold attr_of in Hest. rewrite Hself in Hest. cbn in Hest.
  apply bind_inv_ok in Hfit as (space & w2' & Hg & Hfit).
  apply getattr_inv_ok in Hg as [-> (s2 & Hs2' & Hspace)].
  rewrite Hself2 in Hs2'. injection Hs2' as <-.
  cbn in Hspace. rewrite !lookup_insert_ne in Hspace by done.
  apply bind_inv_ok in Hfit as (n_iter & w2' & Hg & Hfit).
  apply getattr_inv_ok in Hg as [-> (s2 & Hs2' & Hn)].
  rewrite Hself2 in Hs2'. injection Hs2' as <-.
  cbn in Hn. rewrite !lookup_insert_ne in Hn by done.
  apply bind_inv_ok in Hfit as (best & w3 & Hfmin & Hfit).
  pose proof (fmin_extends _ _ _ _ _ _ (objective_extends self) Hfmin) as Hext.
  apply fmin_ok_trace in Hfmin as (n & clones & -> & Ht3 & Hlen & Hnodup & Hnew).
  apply bind_inv_ok in Hfit as (u3 & w4 & Hs3 & Hfit).
  apply setattr_inv_ok in Hs3 as (so3 & Hself3 & Hself4 & Hoth4 & Ht4).
  rewrite (Hext self), Hself2 in Hself3 by (by rewrite Hself2).
  injection Hself3 as <-.
  apply bind_inv_ok in Hfit as (est & w4' & Hg & Hfit).
  apply getattr_inv_ok in Hg as [-> (s4 & Hs4 & Hest4)].
  rewrite Hself4 in Hs4. injection Hs4 as <-.
  cbn in Hest4. rewrite !lookup_insert_ne, Hest in Hest4 by done.
  injection Hest4 as <-.
  apply bind_inv_ok in Hfit as (bp & w4' & Hg & Hfit).
  apply getattr_world in Hg as ->.
  apply bind_inv_ok in Hfit as (cf & w5 & Hsp & Hfit).
  apply set_params_inv_ok in Hsp as (l' & o & d & [= <-] & -> & -> & _ & ->).
  apply bind_inv_ok in Hfit as (X_ & w5' & Hg & Hfit).
  apply getattr_world in Hg as ->.
  apply bind_inv_ok in Hfit as (Y_ & w5' & Hg & Hfit).
  apply getattr_world in Hg as ->.
  apply bind_inv_ok in Hfit as (fitted & w6 & Hfe & Hfit).
  apply fit_estimator_ok_trace in Hfe as (l' & [= <-] & Ht6). cbn in Ht6.
  apply bind_inv_ok in Hfit as (u7 & w7 & Hs7 & Hfit).
  apply setattr_inv_ok in Hs7 as (so6 & _ & _ & _ & Ht7).
  apply bind_inv_ok in Hfit as (u8 & w8 & Hd8 & Hfit).
  apply delattr_inv_ok in Hd8 as (so7 & _ & _ & ->).
  apply bind_inv_ok in Hfit as (u9 & w9 & Hd9 & Hfit).
  apply delattr_inv_ok in Hd9 as (so8 & _ & _ & ->).
  apply bind_inv_ok in Hfit as (u10 & w10 & Hlog & Hfit).
  apply log_inv in Hlog as [_ ->]. inversion Hfit; subst; clear Hfit.
  assert (Forall (fun c => heap w !! c = None) clones) as Hnew0.
  { eapply Forall_impl; [exact Hnew|]. cbn. intros c Hc.
    destruct (decide (c = self)) as [->|Hcs]; [congruence|].
    by rewrite <- Hoth1, <- Hoth2. }
  exists space, n, clones. unfold attr_of. rewrite Hself. cbn.
  repeat split; try done.
  - by rewrite Ht7, Ht6, Ht4, Ht3, Ht2, Ht1, <- !app_assoc.
  - intros Hin. rewrite Forall_forall in Hnew0. apply Hnew0 in Hin. congruence.
Qed.

End FitCalls.

(** ** [predict] after [fit], and [predict] on a rejected input *)

Section Predict.
Context `{Libraries}.

(** X5.  After a [fit] that completes, [predict] on an input that
    [check_array] accepts makes one call, the [predict] of the stored
    estimator, and returns what that call returns: the prediction of the
    estimator with [best_params_] set on it and fitted on all of the
    training data. *)
Theorem fit_then_predict
    (self l : loc) (o0 : obj) (X_train : matrix) (Y_train : vector) (X : matrix)
    (w : world) (r : value) (w1 : world) :
  attr_of w self "estimator" = Some (VRef l) ->
  l <> self ->
  heap w !! l = Some o0 ->
  HyperoptSearchCV.fit self X_train Y_train w = (Ok r, w1) ->
  check_array X = inr X ->
  exists d fattrs,
    attr_of w1 self "best_params_" = Some (VDict d) /\
    estimator_fit (apply_params o0 d) (VArray2 X_train) (VArray1 Y_train)
      = inr fattrs /\
    HyperoptSearchCV.predict self X w1 =
      lift (estimator_predict (mkObj (cls o0) (init_params o0) fattrs) X)
        (mkWorld (heap w1) (trace w1 ++ [call_estimator_predict l X])).
Proof.
  intros Hest Hne Hl Hfit HX.
  destruct (fit_ok_inv _ _ _ _ _ _ Hfit)
    as (so & l' & o & d & fattrs & _ & _ & Hso & Hest' & Ho & Hfitted & Hl' & Hself).
  { intros l0 Hl0. congruence. }
  unfold attr_of in Hest. rewrite Hso in Hest. cbn in Hest.
  assert (l' = l) as -> by congruence.
  rewrite (Ho o0 Hl) in *.
  exists d, fattrs. split.
  { unfold attr_of. rewrite Hself. cbn. by simplify_map_eq. }
  split; [done|].
  unfold HyperoptSearchCV.predict.
  erewrite bind_ok; cycle 1.
  { unfold check_is_fitted, hasattr. cbn [forallb]. rewrite Hself. cbn.
    rewrite !bool_decide_true; [done| |]; by simplify_map_eq. }
  erewrite bind_ok; [|by rewrite HX].
  erewrite bind_ok; cycle 1.
  { eapply getattr_some; [exact Hself|]. cbn. by simplify_map_eq. }
  unfold predict_estimator.
  rewrite (bind_ok _ _ _ _ _ (deref_some _ _ _ Hl')).
  erewrite bind_ok; [|reflexivity].
  reflexivity.
Qed.

(** X6.  [predict] looks at its input before it calls the model: on an
    input that [check_array] rejects (always with a [ValueError]) a
    fitted adapter raises that error, an unfitted one [NotFittedError],
    and in both cases the world is left as it was. *)
Theorem predict_checks_input_before_model
    (self : loc) (X : matrix) (e : exn) (w : world) :
  check_array X = inl e ->
  (exists msg, e = ValueError msg) /\
  HyperoptSearchCV.predict self X w =
    (Raise (if HyperoptSearchCV.fitted w self then e else NotFittedError), w).
Proof.
  intros HX. split.
  { destruct (check_array_inv X) as [[msg Hmsg]|Hok]; [|congruence].
    exists msg. congruence. }
  destruct (HyperoptSearchCV.fitted w self) eqn:Hf.
  - unfold HyperoptSearchCV.predict.
    erewrite bind_ok; cycle 1.
    { unfold check_is_fitted. cbn [forallb].
      unfold HyperoptSearchCV.fitted in Hf. by rewrite andb_true_r, Hf. }
    apply bind_raise. by rewrite HX.
  - unfold HyperoptSearchCV.predict. apply bind_raise.
    unfold check_is_fitted. cbn [forallb].
    unfold HyperoptSearchCV.fitted in Hf. by rewrite andb_true_r, Hf.
Qed.

(** X7.  Construction makes a new object that holds the seven arguments
    under the names of the parameters, so that [get_params] gives them
    back; the adapter is not fitted and has no dataset bound; no other
    object changes and nothing is called. *)
Theorem new_adapter_holds_its_arguments
    (estimator space n_iter scoring cv n_jobs verbose : value) (w : world) :
  exists self w' o,
    HyperoptSearchCV.__init__ estimator space n_iter scoring cv n_jobs verbose w
      = (Ok self, w') /\
    heap w !! self = None /\
    heap w' !! self = Some o /\
    (forall l, l <> self -> heap w' !! l = heap w !! l) /\
    trace w' = trace w /\
    get_params o = attrs o /\
    map (fun k => get_params o !! k)
      ["estimator"; "space"; "n_iter"; "scoring"; "cv"; "n_jobs"; "verbose"]
      = map Some [estimator; space; n_iter; scoring; cv; n_jobs; verbose] /\
    HyperoptSearchCV.fitted w' self = false /\
    hasattr w' self "X_" = false /\
    hasattr w' self "Y_" = false.
Proof.
  eexists _, _, _. split; [apply init_run|].
  set (self := fresh (dom (heap w))). cbn [heap trace].
  rewrite lookup_insert_eq.
  assert (get_params (new_adapter estimator space n_iter scoring cv n_jobs verbose)
          = attrs (new_adapter estimator space n_iter scoring cv n_jobs verbose))
    as Hparams.
  { apply map_eq. intros k. unfold get_params, new_adapter. cbn.
    repeat (rewrite !lookup_insert; repeat case_decide; subst; try done). }
  split; [apply not_elem_of_dom, is_fresh|]. split; [done|]. split.
  { intros l Hl. by rewrite lookup_insert_ne. }
  split; [done|]. split; [exact Hparams|]. split.
  { rewrite Hparams. unfold new_adapter. cbn. by simplify_map_eq. }
  unfold HyperoptSearchCV.fitted, hasattr. cbn. rewrite lookup_insert_eq.
  unfold new_adapter. cbn.
  repeat split.
Qed.

End Predict.

(** ** What a computation adds to the trace *)

Lemma appends_bind P {A B} (m : M A) (k : A -> M B) :
  appends P m -> (forall a, appends P (k a)) -> appends P (m ≫= k).
Proof.
  intros Hm Hk w r w' Hr.
  apply bind_inv in Hr as [(a & w1 & Ha & Hr)|(e & Ha & _)].
  - apply Hm in Ha as (evs1 & Ht1 & HP1). apply Hk in Hr as (evs2 & Ht2 & HP2).
    exists (evs1 ++ evs2). split.
    + by rewrite Ht2, Ht1, <- app_assoc.
    + by apply Forall_app.
  - by apply Hm in Ha.
Qed.

Lemma appends_nothing P {A} (m : M A) :
  (forall w r w', m w = (r, w') -> trace w' = trace w) -> appends P m.
Proof.
  intros Hm w r w' Hr. exists []. rewrite app_nil_r. split; [by eapply Hm|done].
Qed.

Lemma appends_ret P {A} (a : A) : appends P (ret a).
Proof. apply appends_nothing. intros w r w' Hr. by inversion Hr. Qed.

Lemma appends_raise P {A} (e : exn) : appends P (@raise A e).
Proof. apply appends_nothing. intros w r w' Hr. by inversion Hr. Qed.

Lemma appends_lift P {A} (r : exn + A) : appends P (lift r).
Proof. destruct r; [apply appends_raise | apply appends_ret]. Qed.

Lemma appends_getattr P l name : appends P (getattr l name).
Proof.
  apply appends_nothing. intros w r w' Hr. by apply getattr_world in Hr as ->.
Qed.



Lemma appends_log (P : event -> Prop) ev : P ev -> appends P (log ev).
Proof.
  intros HP w r w' Hr. apply log_inv in Hr as [_ ->].
  exists [ev]. split; [done|]. by constructor.
Qed.

Section PlotAppends.
Context `{Libraries}.

Lemma plot_feature_importance_appends clf path :
  appends not_dump (plot_feature_importance clf path).
Proof.
  unfold plot_feature_importance.
  do 3 (apply appends_bind; [by apply appends_log|intros _]).
  apply appends_bind; [apply appends_getattr|intros fi].
  destruct fi; try apply appends_raise.
  - apply appends_bind; [by apply appends_log|intros _]. apply appends_lift.
  - apply appends_bind; [by apply appends_log|intros _]. apply appends_lift.
  - do 6 (apply appends_bind; [by apply appends_log|intros _]).
    apply appends_lift.
Qed.

Lemma plot_feature_importance_keeps_heap clf path :
  keeps_heap (plot_feature_importance clf path).
Proof.
  unfold plot_feature_importance.
  do 3 (apply keeps_heap_bind; [apply keeps_heap_log|intros _]).
  apply keeps_heap_bind; [apply keeps_heap_getattr|intros fi].
  destruct fi; try apply keeps_heap_raise.
  - apply keeps_heap_bind; [apply keeps_heap_log|intros _]. apply keeps_heap_lift.
  - apply keeps_heap_bind; [apply keeps_heap_log|intros _]. apply keeps_heap_lift.
  - do 6 (apply keeps_heap_bind; [apply keeps_heap_log|intros _]).
    apply keeps_heap_lift.
Qed.

End PlotAppends.

(** ** The loop of [main], when a family fails *)

Section FamilyFails.
Context `{Libraries}.

Lemma dump_inv l filename o w r w' :
  heap w !! l = Some o ->
  dump l filename w = (r, w') ->
  w' = mkWorld (heap w) (trace w ++ [call_dump o filename]) /\
  r = match dump_outcome o filename with
      | inl e => Raise e
      | inr u => Ok u
      end.
Proof.
  intros Hl. unfold dump.
  rewrite (bind_ok _ _ _ _ _ (deref_some _ _ _ Hl)).
  erewrite bind_ok; [|reflexivity].
  destruct (dump_outcome o filename); cbn; intros Hd; by inversion Hd.
Qed.

(** X8.  When the processing of a family raises, then either no [dump]
    was called for it (its name is unknown, the search raised, or the
    chart could not be drawn or saved), or [dump] was called last, after
    everything else, and it is [dump] itself that raised. *)
Theorem failed_family_is_not_dumped
    (X_train : matrix) (Y_train : vector) (clf_name : string)
    (w : world) (e : exn) (w' : world) :
  search_family X_train Y_train clf_name w = (Raise e, w') ->
  exists evs,
    trace w' = trace w ++ evs /\
    (Forall not_dump evs \/
     exists best before,
       evs = before ++
             [call_dump best ("./resources/estimators/" ++ clf_name ++ ".pkl")%string] /\
       Forall not_dump before /\
       dump_outcome best ("./resources/estimators/" ++ clf_name ++ ".pkl")%string
         = inl e).
Proof.
  unfold search_family. intros Hs.
  apply bind_inv in Hs as [(base & w0 & Hb & Hs)|(e' & Hb & _)]; cycle 1.
  { apply lift_world in Hb as ->. exists []. rewrite app_nil_r. auto. }
  apply lift_world in Hb as ->.
  apply bind_inv in Hs as [(dists & w0 & Hd & Hs)|(e' & Hd & _)]; cycle 1.
  { apply lift_world in Hd as ->. exists []. rewrite app_nil_r. auto. }
  apply lift_world in Hd as ->.
  apply bind_inv in Hs as [(u & w1 & Hlog & Hs)|(e' & Hlog & _)]; cycle 1.
  { by apply log_inv in Hlog as [[=] _]. }
  apply log_inv in Hlog as [_ ->].
  apply bind_inv in Hs as [(best & w2 & Hr & Hs)|(e' & Hr & _)]; cycle 1.
  { apply lift_world in Hr as ->. eexists. split; [done|]. left.
    by repeat constructor. }
  apply lift_world in Hr as ->.
  apply bind_inv in Hs as [(l & w3 & Hn & Hs)|(e' & Hn & _)]; cycle 1.
  { by apply new_object_inv in Hn as (? & [=] & _). }
  apply new_object_inv in Hn as (l' & [= <-] & Hfresh & ->).
  apply bind_inv in Hs as [(u2 & w4 & Hp & Hs)|(e' & Hp & _)].
  - assert (heap w4 !! l = Some best /\
            exists chart, trace w4 = (trace w ++ [call_RandomizedSearchCV_fit clf_name])
                                       ++ chart /\ Forall not_dump chart)
      as (Hl & chart & Ht4 & Hchart).
    { destruct (String.eqb clf_name "rf").
      + pose proof (plot_feature_importance_keeps_heap _ _ _ _ _ Hp) as Hh.
        apply plot_feature_importance_appends in Hp as (chart & Ht & Hchart).
        split; [rewrite Hh; cbn; apply lookup_insert_eq|]. by exists chart.
      + inversion Hp; subst. split; [cbn; apply lookup_insert_eq|].
        exists []. cbn. by rewrite app_nil_r. }
    apply (dump_inv _ _ _ _ _ _ Hl) in Hs as [-> Hr]. cbn [trace].
    destruct (dump_outcome best _) as [e'|u'] eqn:Hout; [|discriminate].
    injection Hr as ->.
    exists ((call_RandomizedSearchCV_fit clf_name :: chart)
            ++ [call_dump best (estimators_dir ++ clf_name ++ ".pkl")%string]).
    split.
    { rewrite Ht4. cbn. by rewrite <- !app_assoc. }
    right. exists best, (call_RandomizedSearchCV_fit clf_name :: chart).
    split; [done|]. split; [by constructor|done].
  - destruct (String.eqb clf_name "rf"); [|by inversion Hp].
    apply plot_feature_importance_appends in Hp as (evs & Ht & Hevs).
    exists (call_RandomizedSearchCV_fit clf_name :: evs). split.
    + rewrite Ht. cbn. by rewrite <- app_assoc.
    + left. by constructor.
Qed.

Lemma for_each_stops names body bad rest w w1 e w2 :
  for_each names body w = (Ok tt, w1) ->
  body bad w1 = (Raise e, w2) ->
  for_each (names ++ bad :: rest) body w = (Raise e, w2).
Proof.
  revert w. induction names as [|name names IH]; intros w Hok Hbad; cbn.
  - inversion Hok; subst. by apply bind_raise.
  - cbn in Hok. apply bind_inv_ok in Hok as (u & w0 & Hname & Hok).
    rewrite (bind_ok _ _ _ _ _ Hname). by apply IH.
Qed.

(** X9.  The loop does not isolate families: when the families before
    [bad] complete and [bad] raises, the run ends with that exception in
    the world the failure left; the families after [bad] are not
    processed. *)
Theorem loop_stops_at_first_failure
    (X_train : matrix) (Y_train : vector) (names : list string)
    (bad : string) (rest : list string) (w w1 : world) (e : exn) (w2 : world) :
  main_with X_train Y_train names w = (Ok tt, w1) ->
  search_family X_train Y_train bad w1 = (Raise e, w2) ->
  main_with X_train Y_train (names ++ bad :: rest) w = (Raise e, w2).
Proof.
  unfold main_with. intros Hok Hbad.
  apply bind_inv_ok in Hok as (sh & w0 & Hsh & Hok).
  rewrite (bind_ok _ _ _ _ _ Hsh). by eapply for_each_stops.
Qed.



End FamilyFails.

(** ** [main] as it is shipped, and when the chart is drawn *)

Section Shipped.
Context `{Libraries}.



(** X12.  [plot_feature_importance] completes exactly when the model
    has importances that can be charted and saved: a one-dimensional
    array [feature_importances_] for which [savefig] to the path does not
    raise (or importances of another kind with a [size] that numpy and
    matplotlib accept).  It then changes no object and, for the
    one-dimensional array, makes the calls of [drawing]: one bar per
    importance at the positions 0, 1, ..., the y axis from 0 to 0.02
    whatever the values, and [savefig] once, last, with the given path. *)
Theorem plot_feature_importance_completes_iff
    (clf : loc) (path : string) (w w' : world) :
  plot_feature_importance clf path w = (Ok tt, w') <->
  exists o chart,
    heap w !! clf = Some o /\
    chart_of o path chart /\
    w' = mkWorld (heap w) (trace w ++ chart).
Proof.
  split.
  - intros Hp.
    apply plot_feature_importance_inv_ok in Hp as (Hh & o & chart & Ho & Hc & Ht).
    exists o, chart. split; [done|]. split; [done|].
    destruct w'. cbn in *. by subst.
  - intros (o & chart & Ho & Hc & ->).
    by apply (plot_feature_importance_completes clf o).
Qed.

End Shipped.

(** ** When the loop of [main] completes *)

Section LoopCompletes.
Context `{Libraries}.

Lemma search_family_ok_searchable X_train Y_train clf_name w u w' :
  search_family X_train Y_train clf_name w = (Ok u, w') ->
  searchable X_train Y_train clf_name.
Proof.
  intros Hs. apply search_family_inv_ok in Hs as (evs & _ & Hstep).
  destruct Hstep as (base & dists & best & chart & Hb & Hd & Hbest & Hdump & _ & Hrf & _).
  exists base, dists, best. repeat split; try done.
  intros Hname. exists chart. by apply Hrf.
Qed.

(** X13.  The loop of [main] completes exactly when the training matrix
    is two-dimensional and, for every name of the list: both dictionaries
    have the family; its randomized search returns an estimator; for
    [rf], the importances of that estimator can be charted and the chart
    saved without an error; and the [dump] of the estimator to the
    family's file does not raise.  The world the run starts in plays no
    part. *)
Theorem main_completes_iff
    (X_train : matrix) (Y_train : vector) (names : list string) (w : world) :
  (exists w', main_with X_train Y_train names w = (Ok tt, w')) <->
  (exists sh, shape X_train = inr sh) /\
  Forall (searchable X_train Y_train) names.
Proof.
  split; [|intros [Hsh Hnames]; by apply main_with_completes].
  intros [w' Hm]. unfold main_with in Hm.
  apply bind_inv_ok in Hm as (sh & w0 & Hsh & Hm).
  apply lift_inv_ok in Hsh as [Hsh ->].
  split; [by exists sh|]. clear Hsh.
  revert w Hm. induction names as [|name names IH]; intros w Hm; [done|].
  cbn [for_each] in Hm.
  apply bind_inv_ok in Hm as (u & w1 & Hs & Hm).
  constructor; [by eapply search_family_ok_searchable|by eapply IH].
Qed.

End LoopCompletes.

(** ** The code on the sample *)

Import Sample.

Lemma fit_rejects_mismatched_rows_witness :
  length X10 <> length Y9 /\
  exists msg, HyperoptSearchCV.fit self0 X10 Y9 w_new = (Raise (ValueError msg), w_new).
Proof.
  assert (length X10 <> length Y9) as Hlen by (cbn; lia).
  split; [exact Hlen|].
  exact (fit_rejects_mismatched_rows self0 X10 Y9 w_new Hlen).
Defined.

Lemma predict_before_fit_raises_witness :
  HyperoptSearchCV.fitted w_new self0 = false /\
  HyperoptSearchCV.predict self0 X0 w_new = (Raise NotFittedError, w_new).
Proof.
  assert (HyperoptSearchCV.fitted w_new self0 = false) as Hf by (vm_compute; reflexivity).
  split; [exact Hf|].
  exact (predict_before_fit_raises self0 X0 w_new Hf).
Defined.

Lemma predict_twice_same_result_witness :
  HyperoptSearchCV.fitted w_fitted self0 = true /\
  exists r w1 w2,
    HyperoptSearchCV.predict self0 X0 w_fitted = (r, w1) /\
    HyperoptSearchCV.predict self0 X0 w1 = (r, w2) /\
    heap w1 = heap w_fitted /\ heap w2 = heap w_fitted /\
    HyperoptSearchCV.fitted w1 self0 = true /\
    HyperoptSearchCV.fitted w2 self0 = true.
Proof.
  assert (HyperoptSearchCV.fitted w_fitted self0 = true) as Hf by (vm_compute; reflexivity).
  split; [exact Hf|].
  exact (predict_twice_same_result self0 X0 w_fitted Hf).
Defined.

Example predict_on_sample :
  (HyperoptSearchCV.predict self0 X0 w_fitted).1 = Ok [0; 0; 0]%float.
Proof. vm_compute. reflexivity. Qed.

Lemma plot_feature_importance_needs_attribute_witness :
  heap w0 !! 0%nat = Some svr /\
  attrs svr !! "feature_importances_" = None /\
  plot_feature_importance 0%nat importance_path w0 =
    (Raise (AttributeError "feature_importances_"),
     mkWorld (heap w0)
       (trace w0 ++ [call_set_style;
                     call_rcParams_set "font.family" "Times New Roman";
                     call_subplots])).
Proof.
  assert (heap w0 !! 0%nat = Some svr) as Hl by (vm_compute; reflexivity).
  assert (attrs svr !! "feature_importances_" = None) as Hn by (vm_compute; reflexivity).
  split; [exact Hl|]. split; [exact Hn|].
  exact (plot_feature_importance_needs_attribute 0%nat svr importance_path w0 Hl Hn).
Defined.

Lemma fit_on_new_adapter_raises_witness :
  check_X_y X0 Y0 = inr (X0, Y0) /\ 1 <= 2 /\
  exists self w1 e w2,
    HyperoptSearchCV.__init__ (VRef 0%nat) space0 (VAtom (AInt 2))
      VNone VNone (VAtom (AInt 1)) (VAtom (AInt 0)) w0 = (Ok self, w1) /\
    HyperoptSearchCV.fit self X0 Y0 w1 = (Raise e, w2) /\
    trace w2 = trace w0 ++ [call_fmin space0 (VAtom (AInt 2))] /\
    HyperoptSearchCV.fitted w2 self = false /\
    (configurable w0 (VRef 0%nat) (suggest space0 []) -> e = AttributeError "y_").
Proof.
  assert (check_X_y X0 Y0 = inr (X0, Y0)) as Hv by (vm_compute; reflexivity).
  assert (1 <= 2) as Hn by lia.
  split; [exact Hv|]. split; [exact Hn|].
  exact (fit_on_new_adapter_raises (VRef 0%nat) space0 VNone VNone
           (VAtom (AInt 1)) (VAtom (AInt 0)) 2 X0 Y0 w0 Hv Hn).
Defined.

Example sample_configurable : configurable w0 (VRef 0%nat) (suggest space0 []).
Proof.
  exists 0%nat, svr. repeat split.
  repeat constructor; cbn; set_solver.
Qed.

Lemma fit_on_patched_sample :
  HyperoptSearchCV.fit self0 X0 Y0 w_patched = (Ok (VRef self0), w_fitted).
Proof. vm_compute. reflexivity. Qed.

Lemma sample_estimator_is_not_the_adapter :
  forall l, attr_of w_patched self0 "estimator" = Some (VRef l) -> l <> self0.
Proof. intros l Hl. vm_compute in Hl. injection Hl as <-. discriminate. Qed.

Lemma fit_returns_fitted_self_witness :
  (forall l, attr_of w_patched self0 "estimator" = Some (VRef l) -> l <> self0) /\
  HyperoptSearchCV.fit self0 X0 Y0 w_patched = (Ok (VRef self0), w_fitted) /\
  VRef self0 = VRef self0 /\
  hasattr w_fitted self0 "best_params_" = true /\
  hasattr w_fitted self0 "best_estimator_" = true /\
  hasattr w_fitted self0 "X_" = false /\
  hasattr w_fitted self0 "Y_" = false /\
  exists so l o space n history w3 d fattrs,
    heap w_patched !! self0 = Some so /\
    attrs so !! "estimator" = Some (VRef l) /\
    heap w_patched !! l = Some o /\
    attrs so !! "space" = Some space /\
    attrs so !! "n_iter" = Some (VAtom (AInt n)) /\
    run_trials (HyperoptSearchCV.__objective self0) space (Z.to_nat n) []
      (mkWorld (<[self0 := set_obj (set_obj so "X_" (VArray2 X0)) "Y_" (VArray1 Y0)]>
                  (heap w_patched))
               (trace w_patched ++ [call_fmin space (VAtom (AInt n))]))
      = (Ok history, w3) /\
    trials_argmin history = inr d /\
    estimator_fit (apply_params o d) (VArray2 X0) (VArray1 Y0) = inr fattrs /\
    attr_of w_fitted self0 "best_params_" = Some (VDict d) /\
    attr_of w_fitted self0 "best_estimator_" = Some (VRef l) /\
    heap w_fitted !! l = Some (mkObj (cls o) (init_params o) fattrs) /\
    (forall name,
       name <> "X_" -> name <> "Y_" ->
       name <> "best_params_" -> name <> "best_estimator_" ->
       attr_of w_fitted self0 name = attr_of w_patched self0 name).
Proof.
  split; [exact sample_estimator_is_not_the_adapter|].
  split; [exact fit_on_patched_sample|].
  exact (fit_returns_fitted_self self0 X0 Y0 w_patched (VRef self0) w_fitted
           sample_estimator_is_not_the_adapter fit_on_patched_sample).
Defined.

Lemma fit_refits_the_stored_estimator_witness :
  attr_of w_patched self0 "estimator" = Some (VRef 0%nat) /\
  0%nat <> self0 /\
  heap w_patched !! 0%nat = Some svr /\
  HyperoptSearchCV.fit self0 X0 Y0 w_patched = (Ok (VRef self0), w_fitted) /\
  exists so space n history w3 d fattrs,
    heap w_patched !! self0 = Some so /\
    attrs so !! "space" = Some space /\
    attrs so !! "n_iter" = Some (VAtom (AInt n)) /\
    run_trials (HyperoptSearchCV.__objective self0) space (Z.to_nat n) []
      (mkWorld (<[self0 := set_obj (set_obj so "X_" (VArray2 X0)) "Y_" (VArray1 Y0)]>
                  (heap w_patched))
               (trace w_patched ++ [call_fmin space (VAtom (AInt n))]))
      = (Ok history, w3) /\
    trials_argmin history = inr d /\
    attr_of w_fitted self0 "best_params_" = Some (VDict d) /\
    attr_of w_fitted self0 "estimator" = Some (VRef 0%nat) /\
    attr_of w_fitted self0 "best_estimator_" = Some (VRef 0%nat) /\
    estimator_fit (apply_params svr d) (VArray2 X0) (VArray1 Y0) = inr fattrs /\
    heap w_fitted !! 0%nat = Some (mkObj (cls svr) (init_params svr) fattrs).
Proof.
  assert (attr_of w_patched self0 "estimator" = Some (VRef 0%nat)) as He
    by (vm_compute; reflexivity).
  assert (0%nat <> self0) as Hne by discriminate.
  assert (heap w_patched !! 0%nat = Some svr) as Hl by (vm_compute; reflexivity).
  split; [exact He|]. split; [exact Hne|]. split; [exact Hl|].
  split; [exact fit_on_patched_sample|].
  exact (fit_refits_the_stored_estimator self0 0%nat svr X0 Y0 w_patched
           (VRef self0) w_fitted He Hne Hl fit_on_patched_sample).
Defined.

(** C6, as stated, fails on the sample: [fit] completes, and afterwards
    [best_estimator_] is the stored estimator itself, which now carries
    the winning configuration and the fitted state. *)
Lemma fit_does_not_copy_the_estimator :
  HyperoptSearchCV.fit self0 X0 Y0 w_patched = (Ok (VRef self0), w_fitted) /\
  ~ refit_on_fresh_copy w_patched self0 w_fitted /\
  attr_of w_fitted self0 "best_estimator_" = attr_of w_patched self0 "estimator" /\
  attr_of w_patched 0%nat "C" = Some (VAtom (AFloat 1)) /\
  attr_of w_fitted 0%nat "C" = Some (VAtom (AFloat 10)) /\
  hasattr w_patched 0%nat "trained_on_" = false /\
  hasattr w_fitted 0%nat "trained_on_" = true.
Proof.
  split; [exact fit_on_patched_sample|]. split.
  - intros (l & l' & Hl & Hl' & Hne & _).
    vm_compute in Hl, Hl'. congruence.
  - repeat split; vm_compute; reflexivity.
Qed.

Lemma main_on_sample :
  main_with X0 Y0 ["svm"; "rf"]%string w0 = (Ok tt, w_main).
Proof. vm_compute. reflexivity. Qed.

Lemma main_persists_each_family_witness :
  main_with X0 Y0 ["svm"; "rf"]%string w0 = (Ok tt, w_main) /\
  exists steps : list (list event),
    trace w_main = trace w0 ++ concat steps /\
    Forall2 (fun name evs =>
      exists base dists best chart,
        subscript estimator name = inr base /\
        subscript param_distributions name = inr dists /\
        RandomizedSearchCV_fit base dists "r2"
          (mkShuffleSplit 5 test_size_main 1) 1 81 1 (-1) X0 Y0
          = inr best /\
        dump_outcome best ("./resources/estimators/" ++ name ++ ".pkl")%string
          = inr tt /\
        evs = call_RandomizedSearchCV_fit name :: chart ++
              [call_dump best ("./resources/estimators/" ++ name ++ ".pkl")%string] /\
        (name = "rf"%string ->
         chart_of best "./documents/pictures/feature_importances.png" chart) /\
        (name <> "rf"%string -> chart = []))
      ["svm"; "rf"]%string steps.
Proof.
  split; [exact main_on_sample|].
  exact (main_persists_each_family X0 Y0 ["svm"; "rf"]%string w0 w_main main_on_sample).
Defined.

Example main_trace_on_sample :
  trace (main X0 Y0 w0).2 =
    [call_RandomizedSearchCV_fit "svm";
     call_dump (searched (mkTemplate "SVR"
        [ ("epsilon", AFloat 0.1); ("kernel", AStr "rbf"); ("degree", AInt 3);
          ("coef0", AInt 0); ("shrinking", ABool true); ("tol", AFloat 1.0e-03);
          ("verbose", ABool false); ("max_iter", AInt (-1)) ]))
       "./resources/estimators/svm.pkl"].
Proof. vm_compute. reflexivity. Qed.

(** C1, on the sample.  In the world in which [fit] has [fmin] call the
    objective ([X_] and [Y_] bound, no [y_]), the objective raises the
    [AttributeError] of [self.y_] instead of returning the negated mean,
    and that is where [fit] ends.  Had the target been bound under the
    name the objective reads, the same call would return it: minus the
    mean of the two fold scores. *)
Theorem objective_raises_inside_fit :
  suggest space0 [] = kwargs0 /\
  (HyperoptSearchCV.__objective self0 kwargs0 w_search).1
    = Raise (AttributeError "y_") /\
  HyperoptSearchCV.fit self0 X0 Y0 w_new
    = (Raise (AttributeError "y_"),
       (HyperoptSearchCV.__objective self0 kwargs0 w_search).2) /\
  attr_of w_search self0 "Y_" = Some (VArray1 Y0) /\
  attr_of w_search self0 "y_" = None /\
  (HyperoptSearchCV.__objective self0 kwargs0
     (setattr self0 "y_" (VArray1 Y0) w_search).2).1
    = Ok (- mean [0.5; 0.75])%float.
Proof. repeat split; vm_compute; reflexivity. Qed.

(** C5, on the sample.  [fit] on a new adapter and a valid dataset raises
    the [AttributeError] of [self.y_]; the adapter is left unfitted, and
    [predict] on the same features raises [NotFittedError]. *)
Theorem fit_then_predict_fails_on_sample :
  check_X_y X0 Y0 = inr (X0, Y0) /\
  (HyperoptSearchCV.fit self0 X0 Y0 w_new).1 = Raise (AttributeError "y_") /\
  (HyperoptSearchCV.predict self0 X0 (HyperoptSearchCV.fit self0 X0 Y0 w_new).2).1
    = Raise NotFittedError.
Proof. repeat split; vm_compute; reflexivity. Qed.

(** ** The completion lemmas apply to the sample *)

Lemma least_accepts o t rest :
  accepts o t.1 -> Forall (fun t' => accepts o t'.1) rest ->
  accepts o (least t rest).
Proof.
  revert t. induction rest as [|t' rest IH]; intros t Ht Hrest; cbn; [done|].
  inversion Hrest; subst. destruct (t'.2 <? t.2)%float; by apply IH.
Qed.

Example fit_completes_on_sample :
  exists w', HyperoptSearchCV.fit self0 X0 Y0 w_patched = (Ok (VRef self0), w').
Proof.
  assert (accepts svr kwargs0) as Hk.
  { repeat constructor; cbn; set_solver. }
  assert (forall space history, accepts svr (suggest space history)) as Hsuggest.
  { intros ? ?. exact Hk. }
  assert (forall est X y scoring cv n_jobs verbose,
            exists scores,
              cross_val_score est X y scoring cv n_jobs verbose = inr scores)
    as Hscore.
  { intros. by eexists. }
  assert (forall history, history <> [] ->
            Forall (fun t => accepts svr t.1) history ->
            exists best, trials_argmin history = inr best /\ accepts svr best)
    as Hargmin.
  { intros [|t rest] Hne Hall; [done|]. eexists. split; [reflexivity|].
    inversion Hall; subst. by apply least_accepts. }
  assert (forall o X Y, exists fattrs, estimator_fit o X Y = inr fattrs) as Hfit.
  { intros. by eexists. }
  assert (heap w_patched !! self0 = Some patched_adapter) as Hso
    by (vm_compute; reflexivity).
  eapply (fit_completes svr Hsuggest Hscore Hargmin Hfit)
    with (l := 0%nat) (n := 2) (so := patched_adapter);
    try exact Hso; try (vm_compute; by eauto).
Qed.

(** ** The further properties on the sample *)

Import Runs.

Lemma objective_returns_negated_mean_witness :
  HyperoptSearchCV.__objective self0 kwargs0 w_ready
    = (Ok (- mean [0.5; 0.75])%float, w_scored) /\
  exists l o c X_ y_ scoring cv n_jobs verbose scores,
    attr_of w_ready self0 "estimator" = Some (VRef l) /\
    heap w_ready !! l = Some o /\
    heap w_ready !! c = None /\
    heap w_scored !! c =
      Some (apply_params (mkObj (cls o) (init_params o) (get_params o)) kwargs0) /\
    (forall l0, l0 <> c -> heap w_scored !! l0 = heap w_ready !! l0) /\
    attr_of w_ready self0 "X_" = Some X_ /\
    attr_of w_ready self0 "y_" = Some y_ /\
    attr_of w_ready self0 "scoring" = Some scoring /\
    attr_of w_ready self0 "cv" = Some cv /\
    attr_of w_ready self0 "n_jobs" = Some n_jobs /\
    attr_of w_ready self0 "verbose" = Some verbose /\
    cross_val_score
      (apply_params (mkObj (cls o) (init_params o) (get_params o)) kwargs0)
      X_ y_ scoring cv n_jobs verbose = inr scores /\
    (- mean [0.5; 0.75])%float = (- np_mean scores)%float /\
    trace w_scored = trace w_ready ++ [call_cross_val_score c].
Proof.
  assert (HyperoptSearchCV.__objective self0 kwargs0 w_ready
          = (Ok (- mean [0.5; 0.75])%float, w_scored)) as Hrun
    by (vm_compute; reflexivity).
  split; [exact Hrun|].
  exact (objective_returns_negated_mean self0 kwargs0 w_ready _ w_scored Hrun).
Defined.

Lemma search_changes_no_existing_object_witness :
  fmin (HyperoptSearchCV.__objective self0) space0 (VAtom (AInt 2)) w_ready
    = (Ok (VDict kwargs0), w_searched) /\
  heap w_ready !! 0%nat = Some svr /\
  heap w_searched !! 0%nat = Some svr.
Proof.
  assert (fmin (HyperoptSearchCV.__objective self0) space0 (VAtom (AInt 2)) w_ready
          = (Ok (VDict kwargs0), w_searched)) as Hrun
    by (vm_compute; reflexivity).
  assert (heap w_ready !! 0%nat = Some svr) as Hl by (vm_compute; reflexivity).
  split; [exact Hrun|]. split; [exact Hl|].
  exact (search_changes_no_existing_object self0 space0 (VAtom (AInt 2)) w_ready
           _ w_searched 0%nat svr Hrun Hl).
Defined.


Lemma completed_fit_call_sequence_witness :
  attr_of w_patched self0 "estimator" = Some (VRef 0%nat) /\
  0%nat <> self0 /\
  heap w_patched !! 0%nat = Some svr /\
  HyperoptSearchCV.fit self0 X0 Y0 w_patched = (Ok (VRef self0), w_fitted) /\
  exists space n clones,
    attr_of w_patched self0 "space" = Some space /\
    attr_of w_patched self0 "n_iter" = Some (VAtom (AInt n)) /\
    trace w_fitted =
      trace w_patched ++ call_fmin space (VAtom (AInt n))
        :: map call_cross_val_score clones
        ++ [call_estimator_fit 0%nat; call_gc_collect] /\
    length clones = Z.to_nat n /\
    NoDup clones /\
    Forall (fun c => heap w_patched !! c = None) clones /\
    0%nat ∉ clones.
Proof.
  assert (attr_of w_patched self0 "estimator" = Some (VRef 0%nat)) as He
    by (vm_compute; reflexivity).
  assert (0%nat <> self0) as Hne by discriminate.
  assert (heap w_patched !! 0%nat = Some svr) as Hl by (vm_compute; reflexivity).
  assert (HyperoptSearchCV.fit self0 X0 Y0 w_patched = (Ok (VRef self0), w_fitted))
    as Hrun by (vm_compute; reflexivity).
  split; [exact He|]. split; [exact Hne|]. split; [exact Hl|].
  split; [exact Hrun|].
  exact (completed_fit_call_sequence self0 0%nat svr X0 Y0 w_patched
           (VRef self0) w_fitted He Hne Hl Hrun).
Defined.

Example calls_of_fit_on_sample :
  trace w_fitted =
    [call_fmin space0 (VAtom (AInt 2));
     call_cross_val_score 2%nat; call_cross_val_score 3%nat;
     call_estimator_fit 0%nat; call_gc_collect].
Proof. vm_compute. reflexivity. Qed.

Lemma fit_then_predict_witness :
  attr_of w_patched self0 "estimator" = Some (VRef 0%nat) /\
  0%nat <> self0 /\
  heap w_patched !! 0%nat = Some svr /\
  HyperoptSearchCV.fit self0 X0 Y0 w_patched = (Ok (VRef self0), w_fitted) /\
  check_array X0 = inr X0 /\
  exists d fattrs,
    attr_of w_fitted self0 "best_params_" = Some (VDict d) /\
    estimator_fit (apply_params svr d) (VArray2 X0) (VArray1 Y0) = inr fattrs /\
    HyperoptSearchCV.predict self0 X0 w_fitted =
      lift (estimator_predict (mkObj (cls svr) (init_params svr) fattrs) X0)
        (mkWorld (heap w_fitted)
           (trace w_fitted ++ [call_estimator_predict 0%nat X0])).
Proof.
  assert (attr_of w_patched self0 "estimator" = Some (VRef 0%nat)) as He
    by (vm_compute; reflexivity).
  assert (0%nat <> self0) as Hne by discriminate.
  assert (heap w_patched !! 0%nat = Some svr) as Hl by (vm_compute; reflexivity).
  assert (HyperoptSearchCV.fit self0 X0 Y0 w_patched = (Ok (VRef self0), w_fitted))
    as Hrun by (vm_compute; reflexivity).
  assert (check_array X0 = inr X0) as HX by (vm_compute; reflexivity).
  split; [exact He|]. split; [exact Hne|]. split; [exact Hl|].
  split; [exact Hrun|]. split; [exact HX|].
  exact (fit_then_predict self0 0%nat svr X0 Y0 X0 w_patched
           (VRef self0) w_fitted He Hne Hl Hrun HX).
Defined.

Lemma predict_checks_input_before_model_witness :
  check_array [] = inl (ValueError "Expected 2D array, got 1D array instead") /\
  (exists msg,
     ValueError "Expected 2D array, got 1D array instead" = ValueError msg) /\
  HyperoptSearchCV.predict self0 [] w_fitted =
    (Raise (if HyperoptSearchCV.fitted w_fitted self0
            then ValueError "Expected 2D array, got 1D array instead"
            else NotFittedError), w_fitted).
Proof.
  assert (check_array []
          = inl (ValueError "Expected 2D array, got 1D array instead")) as HX
    by reflexivity.
  split; [exact HX|].
  exact (predict_checks_input_before_model self0 [] _ w_fitted HX).
Defined.

Lemma failed_family_is_not_dumped_witness :
  search_family X0 Y0 "knn" w0 = (Raise (KeyError "knn"), w0) /\
  exists evs,
    trace w0 = trace w0 ++ evs /\
    (Forall not_dump evs \/
     exists best before,
       evs = before ++
             [call_dump best ("./resources/estimators/" ++ "knn" ++ ".pkl")%string] /\
       Forall not_dump before /\
       dump_outcome best ("./resources/estimators/" ++ "knn" ++ ".pkl")%string
         = inl (KeyError "knn")).
Proof.
  assert (search_family X0 Y0 "knn" w0 = (Raise (KeyError "knn"), w0)) as Hrun
    by (vm_compute; reflexivity).
  split; [exact Hrun|].
  exact (failed_family_is_not_dumped X0 Y0 "knn" w0 _ w0 Hrun).
Defined.

Lemma loop_stops_at_first_failure_witness :
  main_with X0 Y0 ["svm"]%string w0 = (Ok tt, w_svm) /\
  search_family X0 Y0 "knn" w_svm = (Raise (KeyError "knn"), w_svm) /\
  main_with X0 Y0 (["svm"] ++ "knn" :: ["rf"]) w0
    = (Raise (KeyError "knn"), w_svm).
Proof.
  assert (main_with X0 Y0 ["svm"]%string w0 = (Ok tt, w_svm)) as Hok
    by (vm_compute; reflexivity).
  assert (search_family X0 Y0 "knn" w_svm = (Raise (KeyError "knn"), w_svm))
    as Hbad by (vm_compute; reflexivity).
  split; [exact Hok|]. split; [exact Hbad|].
  exact (loop_stops_at_first_failure X0 Y0 ["svm"]%string "knn" ["rf"]%string
           w0 w_svm _ w_svm Hok Hbad).
Defined.

